(** * Lica: zip <-> JSON/base64 container conversion (src/Main.py)

    A shallow embedding of [pack] and [unpack] of src/Main.py, together with
    executable models of the library calls they make (base64, json, ijson,
    os.path, os.makedirs, open, zipfile), and the properties of the
    specification proved about them.

    Conventions.
    - A Python [str] is a list of code points ([N]); [bytes] is a list of
      [Byte.byte].
    - A call that can raise returns [option] (or a state with a success
      flag); [None] stands for the exception.
    - What the functions print is kept as a list of messages; the text of a
      caught exception interpolated in a message is not kept. *)

From Stdlib Require Import NArith PeanoNat List Bool Lia String Ascii.
From Stdlib Require Import Strings.Byte.
Import ListNotations.
Open Scope N_scope.
Set Warnings "-register-all".
Set Default Goal Selector "!".

(** ** Strings and bytes *)

Definition str := list N.
Definition bytes := list byte.

Definition str_eq_dec : forall a b : str, {a = b} + {a <> b} :=
  list_eq_dec N.eq_dec.

Definition str_eqb (a b : str) : bool :=
  if str_eq_dec a b then true else false.

(** A Rocq string literal read as a Python [str] of Latin-1 code points. *)
Fixpoint u (s : string) : str :=
  match s with
  | EmptyString => []
  | String c s' => N_of_ascii c :: u s'
  end.

Definition byte_of_N (n : N) : byte :=
  match Byte.of_N (n mod 256) with
  | Some b => b
  | None => x00
  end.

(** [b"..."] literals: the bytes of a Latin-1 string. *)
Definition bytes_of (s : string) : bytes := map byte_of_N (u s).

Definition startswith (p s : str) : bool :=
  str_eqb (firstn (List.length p) s) p.

Definition endswith (s p : str) : bool := startswith (rev p) (rev s).

(** Named code points. *)
Definition QUOTE : N := 34.     (* double quote *)
Definition BACKSLASH : N := 92.
Definition SLASH : N := 47.
Definition COLON : N := 58.
Definition COMMA : N := 44.
Definition LBRACE : N := 123.
Definition RBRACE : N := 125.
Definition LBRACKET : N := 91.
Definition RBRACKET : N := 93.
Definition PAD : N := 61.       (* = *)

(** ** base64 (binascii.b2a_base64 / a2b_base64, non-strict mode) *)

Module Base64.

(** table_b2a_base64 *)
Definition b2a (v : N) : N :=
  if v <? 26 then 65 + v
  else if v <? 52 then 97 + (v - 26)
  else if v <? 62 then 48 + (v - 52)
  else if v =? 62 then 43
  else 47.

(** table_a2b_base64; [None] for the entries the C table marks invalid. *)
Definition a2b (c : N) : option N :=
  if (65 <=? c) && (c <=? 90) then Some (c - 65)
  else if (97 <=? c) && (c <=? 122) then Some (c - 97 + 26)
  else if (48 <=? c) && (c <=? 57) then Some (c - 48 + 52)
  else if c =? 43 then Some 62
  else if c =? 47 then Some 63
  else None.

(** base64.b64encode(content).decode('utf-8'): three bytes give four
    characters, a tail of one or two bytes is padded with [=]. *)
Fixpoint b64encode (data : bytes) : str :=
  match data with
  | [] => []
  | [x] =>
      let a := Byte.to_N x in
      [b2a (N.shiftr a 2); b2a (N.shiftl (N.land a 3) 4); PAD; PAD]
  | [x; y] =>
      let a := Byte.to_N x in
      let b := Byte.to_N y in
      [b2a (N.shiftr a 2);
       b2a (N.lor (N.shiftl (N.land a 3) 4) (N.shiftr b 4));
       b2a (N.shiftl (N.land b 15) 2); PAD]
  | x :: y :: z :: rest =>
      let a := Byte.to_N x in
      let b := Byte.to_N y in
      let c := Byte.to_N z in
      b2a (N.shiftr a 2)
      :: b2a (N.lor (N.shiftl (N.land a 3) 4) (N.shiftr b 4))
      :: b2a (N.lor (N.shiftl (N.land b 15) 2) (N.shiftr c 6))
      :: b2a (N.land c 63)
      :: b64encode rest
  end.

(** The decoding loop of binascii.a2b_base64 with strict_mode = 0.
    [quad_pos] is the position in the current group of four, [leftchar] the
    bits carried over, [pads] the padding characters seen since the last
    data character, [acc] the bytes produced so far, most recent first.
    [None] is binascii.Error. *)
Fixpoint a2b_loop (s : str) (quad_pos leftchar pads : N) (acc : bytes)
  : option bytes :=
  match s with
  | [] => if quad_pos =? 0 then Some (rev acc) else None
  | this_ch :: rest =>
      if this_ch =? PAD then
        if 2 <=? quad_pos then
          if 4 <=? quad_pos + (pads + 1) then Some (rev acc)
          else a2b_loop rest quad_pos leftchar (pads + 1) acc
        else a2b_loop rest quad_pos leftchar pads acc
      else
        match a2b this_ch with
        | None => a2b_loop rest quad_pos leftchar pads acc
        | Some v =>
            if quad_pos =? 0 then a2b_loop rest 1 v 0 acc
            else if quad_pos =? 1 then
              a2b_loop rest 2 (N.land v 15) 0
                (byte_of_N (N.lor (N.shiftl leftchar 2) (N.shiftr v 4)) :: acc)
            else if quad_pos =? 2 then
              a2b_loop rest 3 (N.land v 3) 0
                (byte_of_N (N.lor (N.shiftl leftchar 4) (N.shiftr v 2)) :: acc)
            else
              a2b_loop rest 0 0 0
                (byte_of_N (N.lor (N.shiftl leftchar 6) v) :: acc)
        end
  end.

(** base64.b64decode(s) for a [str] argument: the text must be ASCII
    (ValueError otherwise), then a2b_base64 decodes it. *)
Definition b64decode (s : str) : option bytes :=
  if forallb (fun c => c <? 128) s then a2b_loop s 0 0 0 [] else None.

End Base64.

(** ** UTF-8 (the codec of the text-mode [open] calls) *)

Module Utf8.

(** str.encode('utf-8') of one code point; surrogates and values above
    0x10FFFF cannot be encoded (UnicodeEncodeError). *)
Definition encode_char (c : N) : option (list N) :=
  if c <? 0x80 then Some [c]
  else if c <? 0x800 then
    Some [N.lor 0xC0 (N.shiftr c 6); N.lor 0x80 (N.land c 0x3F)]
  else if (0xD800 <=? c) && (c <=? 0xDFFF) then None
  else if c <? 0x10000 then
    Some [N.lor 0xE0 (N.shiftr c 12);
          N.lor 0x80 (N.land (N.shiftr c 6) 0x3F);
          N.lor 0x80 (N.land c 0x3F)]
  else if c <? 0x110000 then
    Some [N.lor 0xF0 (N.shiftr c 18);
          N.lor 0x80 (N.land (N.shiftr c 12) 0x3F);
          N.lor 0x80 (N.land (N.shiftr c 6) 0x3F);
          N.lor 0x80 (N.land c 0x3F)]
  else None.

Fixpoint encode (s : str) : option bytes :=
  match s with
  | [] => Some []
  | c :: r =>
      match encode_char c, encode r with
      | Some bs, Some rest => Some (map byte_of_N bs ++ rest)
      | _, _ => None
      end
  end.

Definition cont (b : N) : bool := (0x80 <=? b) && (b <=? 0xBF).

(** bytes.decode('utf-8'), strict: overlong forms, surrogates and values
    above 0x10FFFF are rejected (UnicodeDecodeError). *)
Fixpoint decode (bs : bytes) : option str :=
  match bs with
  | [] => Some []
  | x :: r1 =>
      let a := Byte.to_N x in
      if a <? 0x80 then option_map (cons a) (decode r1)
      else if (0xC2 <=? a) && (a <=? 0xDF) then
        match r1 with
        | y :: r2 =>
            let b := Byte.to_N y in
            if cont b then
              option_map
                (cons (N.lor (N.shiftl (N.land a 0x1F) 6) (N.land b 0x3F)))
                (decode r2)
            else None
        | _ => None
        end
      else if (0xE0 <=? a) && (a <=? 0xEF) then
        match r1 with
        | y :: z :: r3 =>
            let b := Byte.to_N y in
            let c := Byte.to_N z in
            if (if a =? 0xE0 then (0xA0 <=? b) && (b <=? 0xBF)
                else if a =? 0xED then (0x80 <=? b) && (b <=? 0x9F)
                else cont b)
               && cont c
            then
              option_map
                (cons (N.lor (N.shiftl (N.land a 0x0F) 12)
                         (N.lor (N.shiftl (N.land b 0x3F) 6) (N.land c 0x3F))))
                (decode r3)
            else None
        | _ => None
        end
      else if (0xF0 <=? a) && (a <=? 0xF4) then
        match r1 with
        | y :: z :: w :: r4 =>
            let b := Byte.to_N y in
            let c := Byte.to_N z in
            let d := Byte.to_N w in
            if (if a =? 0xF0 then (0x90 <=? b) && (b <=? 0xBF)
                else if a =? 0xF4 then (0x80 <=? b) && (b <=? 0x8F)
                else cont b)
               && cont c && cont d
            then
              option_map
                (cons (N.lor (N.shiftl (N.land a 0x07) 18)
                         (N.lor (N.shiftl (N.land b 0x3F) 12)
                            (N.lor (N.shiftl (N.land c 0x3F) 6)
                               (N.land d 0x3F)))))
                (decode r4)
            else None
        | _ => None
        end
      else None
  end.

End Utf8.

(** ** json: dumps of a string, and the decoder *)

Module Json.

Definition hexdigit (v : N) : N :=
  if v <? 10 then 48 + v else 97 + (v - 10).

(** '{0:04x}'.format(n) for n < 0x10000 *)
Definition hex4 (n : N) : str :=
  [hexdigit (N.land (N.shiftr n 12) 15);
   hexdigit (N.land (N.shiftr n 8) 15);
   hexdigit (N.land (N.shiftr n 4) 15);
   hexdigit (N.land n 15)].

(** The replacement of one character in encode_basestring_ascii
    (ensure_ascii is True in [json.dumps] by default): the printable ASCII
    characters other than the quote and the backslash stand for themselves,
    everything else is escaped. *)
Definition escape_char (c : N) : str :=
  if c =? QUOTE then [BACKSLASH; QUOTE]
  else if c =? BACKSLASH then [BACKSLASH; BACKSLASH]
  else if c =? 10 then [BACKSLASH; 110]        (* \n *)
  else if c =? 13 then [BACKSLASH; 114]        (* \r *)
  else if c =? 9 then [BACKSLASH; 116]         (* \t *)
  else if c =? 8 then [BACKSLASH; 98]          (* \b *)
  else if c =? 12 then [BACKSLASH; 102]        (* \f *)
  else if (32 <=? c) && (c <=? 126) then [c]
  else if c <? 0x10000 then BACKSLASH :: 117 :: hex4 c
  else
    let v := c - 0x10000 in
    let s1 := N.lor 0xD800 (N.land (N.shiftr v 10) 0x3FF) in
    let s2 := N.lor 0xDC00 (N.land v 0x3FF) in
    (BACKSLASH :: 117 :: hex4 s1) ++ (BACKSLASH :: 117 :: hex4 s2).

(** json.dumps(s) for a [str] *)
Definition dumps (s : str) : str :=
  QUOTE :: flat_map escape_char s ++ [QUOTE].

(** Parsed values.  A number keeps its lexeme; an object keeps its pairs in
    document order (the dict is built by [py_dict] below). *)
Inductive json : Type :=
| JNull
| JTrue
| JFalse
| JNum (lexeme : str)
| JStr (s : str)
| JArr (items : list json)
| JObj (members : list (str * json)).

Definition is_ws (c : N) : bool :=
  (c =? 32) || (c =? 9) || (c =? 10) || (c =? 13).

Fixpoint skip_ws (s : str) : str :=
  match s with
  | c :: r => if is_ws c then skip_ws r else s
  | [] => []
  end.

Definition hexval (c : N) : option N :=
  if (48 <=? c) && (c <=? 57) then Some (c - 48)
  else if (97 <=? c) && (c <=? 102) then Some (c - 97 + 10)
  else if (65 <=? c) && (c <=? 70) then Some (c - 65 + 10)
  else None.

Definition decode_hex4 (h1 h2 h3 h4 : N) : option N :=
  match hexval h1, hexval h2, hexval h3, hexval h4 with
  | Some a, Some b, Some c, Some d =>
      Some (N.lor (N.shiftl a 12) (N.lor (N.shiftl b 8) (N.lor (N.shiftl c 4) d)))
  | _, _, _, _ => None
  end.

Definition is_high_surrogate (c : N) : bool := (0xD800 <=? c) && (c <=? 0xDBFF).
Definition is_low_surrogate (c : N) : bool := (0xDC00 <=? c) && (c <=? 0xDFFF).

Definition join_surrogates (hi lo : N) : N :=
  0x10000 + N.lor (N.shiftl (hi - 0xD800) 10) (lo - 0xDC00).

Definition simple_escape (c : N) : option N :=
  if c =? QUOTE then Some QUOTE
  else if c =? BACKSLASH then Some BACKSLASH
  else if c =? SLASH then Some SLASH
  else if c =? 98 then Some 8
  else if c =? 102 then Some 12
  else if c =? 110 then Some 10
  else if c =? 114 then Some 13
  else if c =? 116 then Some 9
  else None.

(** scanstring (strict): [s] is the text after the opening quote; the result
    is the decoded string and the text after the closing quote. *)
Fixpoint scanstring (s : str) : option (str * str) :=
  match s with
  | [] => None
  | c :: rest =>
      if c =? QUOTE then Some ([], rest)
      else if c =? BACKSLASH then
        match rest with
        | [] => None
        | e :: rest1 =>
            if e =? 117 then
              match rest1 with
              | h1 :: h2 :: h3 :: h4 :: rest2 =>
                  match decode_hex4 h1 h2 h3 h4 with
                  | None => None
                  | Some uni =>
                      let single :=
                        match scanstring rest2 with
                        | Some (k, r) => Some (uni :: k, r)
                        | None => None
                        end in
                      if is_high_surrogate uni then
                        match rest2 with
                        | b :: v :: g1 :: g2 :: g3 :: g4 :: rest3 =>
                            if (b =? BACKSLASH) && (v =? 117) then
                              match decode_hex4 g1 g2 g3 g4 with
                              | None => None
                              | Some uni2 =>
                                  if is_low_surrogate uni2 then
                                    match scanstring rest3 with
                                    | Some (k, r) =>
                                        Some (join_surrogates uni uni2 :: k, r)
                                    | None => None
                                    end
                                  else single
                              end
                            else single
                        | _ => single
                        end
                      else single
                  end
              | _ => None
              end
            else
              match simple_escape e with
              | None => None
              | Some ch =>
                  match scanstring rest1 with
                  | Some (k, r) => Some (ch :: k, r)
                  | None => None
                  end
              end
        end
      else if c <? 32 then None
      else
        match scanstring rest with
        | Some (k, r) => Some (c :: k, r)
        | None => None
        end
  end.

Definition is_digit (c : N) : bool := (48 <=? c) && (c <=? 57).

Fixpoint span_digits (s : str) : str * str :=
  match s with
  | c :: r =>
      if is_digit c then let (ds, r') := span_digits r in (c :: ds, r')
      else ([], s)
  | [] => ([], [])
  end.

(** The number matcher of the scanner: an optional minus sign, an integer
    part without a leading zero, an optional fraction, an optional exponent
    (dropped again when it has no digit). *)
Definition match_number (s : str) : option (str * str) :=
  let (sign, s1) :=
    match s with
    | c :: r => if c =? 45 then ([c], r) else ([], s)
    | [] => ([], s)
    end in
  match s1 with
  | [] => None
  | c :: r =>
      let int_part :=
        if (49 <=? c) && (c <=? 57) then
          let (ds, r') := span_digits r in Some (c :: ds, r')
        else if c =? 48 then Some ([c], r)
        else None in
      match int_part with
      | None => None
      | Some (ip, s2) =>
          let (frac, s3) :=
            match s2 with
            | dot :: d :: r2 =>
                if (dot =? 46) && is_digit d then
                  let (ds, r3) := span_digits r2 in (dot :: d :: ds, r3)
                else ([], s2)
            | _ => ([], s2)
            end in
          let (expo, s4) :=
            match s3 with
            | e :: r4 =>
                if (e =? 101) || (e =? 69) then
                  let (sg, r5) :=
                    match r4 with
                    | g :: r6 =>
                        if (g =? 45) || (g =? 43) then ([g], r6) else ([], r4)
                    | [] => ([], r4)
                    end in
                  match span_digits r5 with
                  | ([], _) => ([], s3)
                  | (ds, r7) => (e :: sg ++ ds, r7)
                  end
                else ([], s3)
            | [] => ([], s3)
            end in
          Some (sign ++ ip ++ frac ++ expo, s4)
      end
  end.

(** [expect lit s]: the text after [lit] when [s] starts with it. *)
Definition expect (lit s : str) : option str :=
  if startswith lit s then Some (skipn (List.length lit) s) else None.

(** scan_once, JSONObject and JSONArray.  [consts] tells whether the
    literals NaN, Infinity and -Infinity are accepted (json accepts them,
    ijson does not).  The recursion is on [fuel]; [loads] gives as much fuel
    as the text has characters, and every call consumes one. *)
Fixpoint scan_once (consts : bool) (fuel : nat) (s : str)
  : option (json * str) :=
  match fuel with
  | O => None
  | S fuel' =>
      match s with
      | [] => None
      | c :: rest =>
          if c =? QUOTE then
            match scanstring rest with
            | Some (v, r) => Some (JStr v, r)
            | None => None
            end
          else if c =? LBRACE then
            match skip_ws rest with
            | d :: r =>
                if d =? RBRACE then Some (JObj [], r)
                else if d =? QUOTE then
                  match parse_members consts fuel' r with
                  | Some (ps, r') => Some (JObj ps, r')
                  | None => None
                  end
                else None
            | [] => None
            end
          else if c =? LBRACKET then
            match skip_ws rest with
            | d :: r =>
                if d =? RBRACKET then Some (JArr [], r)
                else
                  match parse_elements consts fuel' (d :: r) with
                  | Some (vs, r') => Some (JArr vs, r')
                  | None => None
                  end
            | [] => None
            end
          else if startswith (u "null") s then Some (JNull, skipn 4 s)
          else if startswith (u "true") s then Some (JTrue, skipn 4 s)
          else if startswith (u "false") s then Some (JFalse, skipn 5 s)
          else if startswith (u "NaN") s then
            if consts then Some (JNum (u "NaN"), skipn 3 s) else None
          else if startswith (u "Infinity") s then
            if consts then Some (JNum (u "Infinity"), skipn 8 s) else None
          else if startswith (u "-Infinity") s then
            if consts then Some (JNum (u "-Infinity"), skipn 9 s) else None
          else
            match match_number s with
            | Some (lx, r) => Some (JNum lx, r)
            | None => None
            end
      end
  end

(** The members of an object; [s] is the text after the opening quote of a
    key. *)
with parse_members (consts : bool) (fuel : nat) (s : str)
  : option (list (str * json) * str) :=
  match fuel with
  | O => None
  | S fuel' =>
      match scanstring s with
      | None => None
      | Some (key, s1) =>
          match skip_ws s1 with
          | c :: s2 =>
              if c =? COLON then
                match scan_once consts fuel' (skip_ws s2) with
                | None => None
                | Some (v, s3) =>
                    match skip_ws s3 with
                    | d :: s4 =>
                        if d =? RBRACE then Some ([(key, v)], s4)
                        else if d =? COMMA then
                          match skip_ws s4 with
                          | q :: s5 =>
                              if q =? QUOTE then
                                match parse_members consts fuel' s5 with
                                | Some (ps, r) => Some ((key, v) :: ps, r)
                                | None => None
                                end
                              else None
                          | [] => None
                          end
                        else None
                    | [] => None
                    end
                end
              else None
          | [] => None
          end
      end
  end

(** The elements of an array; [s] is the text at the first element. *)
with parse_elements (consts : bool) (fuel : nat) (s : str)
  : option (list json * str) :=
  match fuel with
  | O => None
  | S fuel' =>
      match scan_once consts fuel' s with
      | None => None
      | Some (v, s1) =>
          match skip_ws s1 with
          | d :: s2 =>
              if d =? RBRACKET then Some ([v], s2)
              else if d =? COMMA then
                match parse_elements consts fuel' (skip_ws s2) with
                | Some (vs, r) => Some (v :: vs, r)
                | None => None
                end
              else None
          | [] => None
          end
      end
  end.

Definition fuel_for (s : str) : nat := S (S (List.length s)).

(** json.loads(s): one value, white space around it, nothing after it; a
    leading byte order mark is refused.  [None] is JSONDecodeError. *)
Definition loads (s : str) : option json :=
  match s with
  | 0xFEFF :: _ => None
  | _ =>
      match scan_once true (fuel_for s) (skip_ws s) with
      | Some (v, r) =>
          match skip_ws r with
          | [] => Some v
          | _ :: _ => None
          end
      | None => None
      end
  end.

(** dict(pairs): a later pair with a key already present replaces the value
    and keeps the position of the first. *)
Fixpoint dict_set (d : list (str * json)) (k : str) (v : json)
  : list (str * json) :=
  match d with
  | [] => [(k, v)]
  | (k', v') :: d' =>
      if str_eqb k' k then (k', v) :: d' else (k', v') :: dict_set d' k v
  end.

Definition py_dict (pairs : list (str * json)) : list (str * json) :=
  fold_left (fun d kv => dict_set d (fst kv) (snd kv)) pairs [].

End Json.

(** ** ijson.kvitems(f, ''): the pairs of the top-level object, one at a time

    The model follows the contract of the library: the bytes are UTF-8, the
    pairs of the top-level object are produced in document order, each one
    when its value is complete, and the parser raises at the first
    syntax error (the flag is [false] then: the pairs before the error have
    been produced, the ones after it have not).  A well-formed document whose
    top-level value is not an object produces no pair. *)

Module Ijson.
Import Json.

Definition at_end (s : str) : bool :=
  match skip_ws s with
  | [] => true
  | _ :: _ => false
  end.

Fixpoint kv_members (fuel : nat) (s : str) : list (str * json) * bool :=
  match fuel with
  | O => ([], false)
  | S fuel' =>
      match scanstring s with
      | None => ([], false)
      | Some (key, s1) =>
          match skip_ws s1 with
          | c :: s2 =>
              if c =? COLON then
                match scan_once false fuel' (skip_ws s2) with
                | None => ([], false)
                | Some (v, s3) =>
                    match skip_ws s3 with
                    | d :: s4 =>
                        if d =? RBRACE then ([(key, v)], at_end s4)
                        else if d =? COMMA then
                          match skip_ws s4 with
                          | q :: s5 =>
                              if q =? QUOTE then
                                let (ps, ok) := kv_members fuel' s5 in
                                ((key, v) :: ps, ok)
                              else ([(key, v)], false)
                          | [] => ([(key, v)], false)
                          end
                        else ([(key, v)], false)
                    | [] => ([(key, v)], false)
                    end
                end
              else ([], false)
          | [] => ([], false)
          end
      end
  end.

Definition kvitems_text (s : str) : list (str * json) * bool :=
  match skip_ws s with
  | [] => ([], false)
  | c :: rest =>
      if c =? LBRACE then
        match skip_ws rest with
        | d :: r =>
            if d =? RBRACE then ([], at_end r)
            else if d =? QUOTE then kv_members (S (List.length s)) r
            else ([], false)
        | [] => ([], false)
        end
      else
        match scan_once false (fuel_for s) (c :: rest) with
        | Some (_, r) => ([], at_end r)
        | None => ([], false)
        end
  end.

Definition kvitems (data : bytes) : list (str * json) * bool :=
  match Utf8.decode data with
  | None => ([], false)
  | Some s => kvitems_text s
  end.

End Ijson.

(** ** posixpath *)

Module PosixPath.

Definition is_sep (c : N) : bool := c =? SLASH.

(** os.path.join(a, b) *)
Definition join (a b : str) : str :=
  if startswith [SLASH] b then b
  else if match a with [] => true | _ => endswith a [SLASH] end then a ++ b
  else a ++ SLASH :: b.

(** p[:p.rfind('/') + 1] *)
Fixpoint dir_prefix (p : str) : str :=
  match p with
  | [] => []
  | c :: r => if existsb is_sep p then c :: dir_prefix r else []
  end.

Fixpoint lstrip_sep (s : str) : str :=
  match s with
  | c :: r => if is_sep c then lstrip_sep r else s
  | [] => []
  end.

(** s.rstrip('/') *)
Definition rstrip_sep (s : str) : str := rev (lstrip_sep (rev s)).

(** os.path.dirname(p) *)
Definition dirname (p : str) : str :=
  let head := dir_prefix p in
  match head with
  | [] => head
  | _ :: _ => if forallb is_sep head then head else rstrip_sep head
  end.

End PosixPath.

(** ** Archives and the environment *)

(** An archive as the reader presents it: the members in the order of
    [infolist()], each with its name and the bytes [zf.open(info).read()]
    returns. *)
Record member : Type := { filename : str; payload : bytes }.

Definition archive := list member.

(** ZipInfo.is_dir(): the name ends with a slash. *)
Definition is_dir (info : member) : bool := endswith (filename info) [SLASH].

(** The calls into the environment.  A flag [false] (or [None]) stands for
    an exception of the call; the state returned with it is what the call
    left behind. *)
Class FileSystem (W : Type) : Type := {
  (** zipfile.ZipFile(path, 'r') *)
  zip_open : str -> W -> option archive;
  (** open(path, 'r', encoding='utf-8') and reading it to the end *)
  read_text : str -> W -> option str;
  (** open(path, 'rb') and reading it to the end *)
  read_bytes : str -> W -> option bytes;
  (** open(path, 'w', encoding='utf-8'), the writes, and the close; a
      failure is a failure of the open call *)
  write_text : str -> str -> W -> W * bool;
  (** open(path, 'wb'), the write, and the close *)
  write_bytes : str -> bytes -> W -> W * bool;
  (** os.makedirs(path, exist_ok=True) *)
  makedirs : str -> W -> W * bool
}.

Inductive message : Type :=
| MsgZipFailed                              (* pack: the archive did not open *)
| MsgPackProgress (n : nat)
| MsgPackDone (n : nat) (lica_path : str)
| MsgUnpackProgress (n : nat)
| MsgEntryFailed (key : str)                (* unpack: one entry failed *)
| MsgUnpackDone (n : nat) (output_dir : str)
| MsgStreamFailed                           (* unpack: the streaming parse failed *)
| MsgReadFailed.                            (* unpack: the container did not load *)

Inductive exn : Type := OSError | AttributeError.

Inductive outcome : Type :=
| Returned
| Raised (e : exn).

(** What a call of [pack] or [unpack] leaves: how it ended, what it printed,
    and the environment. *)
Record run (W : Type) : Type := {
  result : outcome;
  stdout : list message;
  final : W
}.
Arguments result {W} _.
Arguments stdout {W} _.
Arguments final {W} _.

(** ** pack (src/Main.py, lines 22-63) *)

(** The variables of the loop: the text written to [out_f] so far, [first],
    [file_count], and what was printed. *)
Record pack_state : Type := {
  out_f : str;
  first : bool;
  file_count : nat;
  pack_log : list message
}.

Definition pack_init : pack_state :=
  {| out_f := [LBRACE]; first := true; file_count := 0; pack_log := [] |}.

(** One iteration of [for info in zf.infolist()]. *)
Definition pack_member (st : pack_state) (info : member) : pack_state :=
  if is_dir info then st
  else
    let content := payload info in
    let b64_str := Base64.b64encode content in
    let out1 := if first st then out_f st else out_f st ++ [COMMA] in
    let key := Json.dumps (filename info) in
    let out2 := out1 ++ key ++ [COLON; QUOTE] ++ b64_str ++ [QUOTE] in
    let n := S (file_count st) in
    {| out_f := out2;
       first := false;
       file_count := n;
       pack_log := pack_log st ++
                   (if Nat.eqb (Nat.modulo n 100) 0 then [MsgPackProgress n] else []) |}.

Definition pack_loop (zf : archive) : pack_state :=
  fold_left pack_member zf pack_init.

Definition pack {W} `{FileSystem W} (zip_path lica_path : str) (w : W) : run W :=
  match zip_open zip_path w with
  | None => {| result := Returned; stdout := [MsgZipFailed]; final := w |}
  | Some zf =>
      let st := pack_loop zf in
      let (w', ok) := write_text lica_path (out_f st ++ [RBRACE]) w in
      if ok then
        {| result := Returned;
           stdout := pack_log st ++ [MsgPackDone (file_count st) lica_path];
           final := w' |}
      else {| result := Raised OSError; stdout := []; final := w' |}
  end.

(** ** unpack (src/Main.py, lines 66-115) *)

Record unpack_state (W : Type) : Type := {
  fs : W;
  count : nat;
  unpack_log : list message
}.
Arguments fs {W} _.
Arguments count {W} _.
Arguments unpack_log {W} _.

(** base64.b64decode applied to a parsed value: anything but a string is a
    TypeError. *)
Definition b64decode_value (v : Json.json) : option bytes :=
  match v with
  | Json.JStr s => Base64.b64decode s
  | _ => None
  end.

Definition entry_failed {W} (st : unpack_state W) (w : W) (key : str)
  : unpack_state W :=
  {| fs := w; count := count st;
     unpack_log := unpack_log st ++ [MsgEntryFailed key] |}.

(** The body of the loop of the streaming branch (lines 80-91). *)
Definition stream_entry {W} `{FileSystem W} (output_dir : str)
  (st : unpack_state W) (kv : str * Json.json) : unpack_state W :=
  let (key, b64_str) := kv in
  match b64decode_value b64_str with
  | None => entry_failed st (fs st) key
  | Some content =>
      let full_path := PosixPath.join output_dir key in
      let (w1, ok1) := makedirs (PosixPath.dirname full_path) (fs st) in
      if ok1 then
        let (w2, ok2) := write_bytes full_path content w1 in
        if ok2 then
          let n := S (count st) in
          {| fs := w2; count := n;
             unpack_log := unpack_log st ++
               (if Nat.eqb (Nat.modulo n 100) 0 then [MsgUnpackProgress n] else []) |}
        else entry_failed st w2 key
      else entry_failed st w1 key
  end.

(** The body of the loop of the bulk branch (lines 105-114). *)
Definition bulk_entry {W} `{FileSystem W} (output_dir : str)
  (st : unpack_state W) (kv : str * Json.json) : unpack_state W :=
  let (rel_path, b64_str) := kv in
  match b64decode_value b64_str with
  | None => entry_failed st (fs st) rel_path
  | Some content =>
      let full_path := PosixPath.join output_dir rel_path in
      let (w1, ok1) := makedirs (PosixPath.dirname full_path) (fs st) in
      if ok1 then
        let (w2, ok2) := write_bytes full_path content w1 in
        if ok2 then
          {| fs := w2; count := S (count st); unpack_log := unpack_log st |}
        else entry_failed st w2 rel_path
      else entry_failed st w1 rel_path
  end.

Definition unpack_init {W} (w : W) : unpack_state W :=
  {| fs := w; count := 0; unpack_log := [] |}.

(** The streaming branch (lines 75-94). *)
Definition unpack_stream {W} `{FileSystem W} (lica_path output_dir : str) (w : W)
  : run W :=
  match read_bytes lica_path w with
  | None => {| result := Returned; stdout := [MsgStreamFailed]; final := w |}
  | Some data =>
      let (pairs, ok) := Ijson.kvitems data in
      let st := fold_left (stream_entry output_dir) pairs (unpack_init w) in
      {| result := Returned;
         stdout := unpack_log st ++
                   (if ok then [MsgUnpackDone (count st) output_dir]
                    else [MsgStreamFailed]);
         final := fs st |}
  end.

(** data.items() *)
Definition items (data : Json.json) : option (list (str * Json.json)) :=
  match data with
  | Json.JObj pairs => Some (Json.py_dict pairs)
  | _ => None
  end.

(** json.load(f) on the opened container: reading and parsing. *)
Definition json_load {W} `{FileSystem W} (lica_path : str) (w : W)
  : option Json.json :=
  match read_text lica_path w with
  | None => None
  | Some text => Json.loads text
  end.

(** The bulk branch (lines 96-115). *)
Definition unpack_bulk {W} `{FileSystem W} (lica_path output_dir : str) (w : W)
  : run W :=
  match json_load lica_path w with
  | None => {| result := Returned; stdout := [MsgReadFailed]; final := w |}
  | Some data =>
      match items data with
      | None => {| result := Raised AttributeError; stdout := []; final := w |}
      | Some entries =>
          let st := fold_left (bulk_entry output_dir) entries (unpack_init w) in
          {| result := Returned;
             stdout := unpack_log st ++ [MsgUnpackDone (count st) output_dir];
             final := fs st |}
      end
  end.

(** [HAS_IJSON] is the module-level flag set by the import at lines 15-19. *)
Definition unpack {W} `{FileSystem W} (HAS_IJSON : bool)
  (lica_path output_dir : str) (use_stream : bool) (w : W) : run W :=
  let (w1, ok) := makedirs output_dir w in
  if ok then
    if use_stream && HAS_IJSON then unpack_stream lica_path output_dir w1
    else unpack_bulk lica_path output_dir w1
  else {| result := Raised OSError; stdout := []; final := w1 |}.

(** The count a run reports in its closing message, if it printed one. *)
Definition reported_count {W} (r : run W) : option nat :=
  match last (stdout r) MsgReadFailed with
  | MsgPackDone n _ => Some n
  | MsgUnpackDone n _ => Some n
  | _ => None
  end.

(** ** A model of the environment: a directory tree

    A tree of directories and files without symbolic links or permissions.
    A node is addressed by the names on the way from the root; the root is
    always a directory.  A path string is resolved the way the system does:
    from the root when it starts with a slash, from the working directory
    otherwise; an empty component and [.] stay, [..] goes to the parent, and
    every directory passed through has to exist.  The archives readable at a
    path are kept apart from the tree, as the archive reader presents
    them. *)

Module Disk.

Inductive node : Type :=
| File (data : bytes)
| Dir.

Definition cpath := list str.

Definition cpath_eq_dec : forall a b : cpath, {a = b} + {a <> b} :=
  list_eq_dec str_eq_dec.

Record disk : Type := {
  nodes : cpath -> option node;
  cwd : cpath;
  archives : str -> option archive
}.

Definition lookup (d : disk) (c : cpath) : option node :=
  match c with
  | [] => Some Dir
  | _ :: _ => nodes d c
  end.

Definition set_node (d : disk) (c : cpath) (n : node) : disk :=
  {| nodes := fun c' => if cpath_eq_dec c' c then Some n else nodes d c';
     cwd := cwd d;
     archives := archives d |}.

Definition is_dir_node (d : disk) (c : cpath) : bool :=
  match lookup d c with
  | Some Dir => true
  | _ => false
  end.

(** p.split('/') *)
Fixpoint split_sep (p : str) : list str :=
  match p with
  | [] => [[]]
  | c :: r =>
      if c =? SLASH then [] :: split_sep r
      else
        match split_sep r with
        | h :: t => (c :: h) :: t
        | [] => [[c]]
        end
  end.

Definition DOT : str := [46].
Definition DOTDOT : str := [46; 46].

Definition parent (c : cpath) : cpath := removelast c.

(** Where the walk starts. *)
Definition start (d : disk) (p : str) : cpath :=
  if startswith [SLASH] p then [] else cwd d.

(** A path the system calls accept: not empty, without a NUL character. *)
Definition path_ok (p : str) : bool :=
  match p with
  | [] => false
  | _ :: _ => forallb (fun c => negb (c =? 0)) p
  end.

(** Path resolution: the node the components lead to from [cur].  The node
    itself need not exist; the directories on the way do. *)
Fixpoint walk (d : disk) (cur : cpath) (comps : list str) : option cpath :=
  match comps with
  | [] => Some cur
  | x :: rest =>
      if is_dir_node d cur then
        if str_eqb x [] || str_eqb x DOT then walk d cur rest
        else if str_eqb x DOTDOT then walk d (parent cur) rest
        else walk d (cur ++ [x]) rest
      else None
  end.

Definition resolve (d : disk) (p : str) : option cpath :=
  if path_ok p then walk d (start d p) (split_sep p) else None.

(** os.path.isdir(p) *)
Definition isdir (d : disk) (p : str) : bool :=
  match resolve d p with
  | Some c => is_dir_node d c
  | None => false
  end.

(** The bytes of the file at [p], if [p] leads to a file. *)
Definition file_at (d : disk) (p : str) : option bytes :=
  match resolve d p with
  | Some c =>
      match lookup d c with
      | Some (File data) => Some data
      | _ => None
      end
  | None => None
  end.

(** open(p, 'wb'), write, close: the file is created or replaced; a
    directory cannot be opened for writing. *)
Definition disk_write_bytes (p : str) (data : bytes) (d : disk) : disk * bool :=
  match resolve d p with
  | Some c =>
      match lookup d c with
      | Some Dir => (d, false)
      | _ => (set_node d c (File data), true)
      end
  | None => (d, false)
  end.

Definition disk_write_text (p : str) (text : str) (d : disk) : disk * bool :=
  match Utf8.encode text with
  | Some data => disk_write_bytes p data d
  | None => (d, false)
  end.

Definition disk_read_bytes (p : str) (d : disk) : option bytes := file_at d p.

Definition disk_read_text (p : str) (d : disk) : option str :=
  match file_at d p with
  | Some data => Utf8.decode data
  | None => None
  end.

(** os.makedirs(p, exist_ok=True): every missing directory on the way is
    created; a file on the way makes the call fail, and what was created
    before stays. *)
Fixpoint mkdir_p (d : disk) (cur : cpath) (comps : list str) : disk * bool :=
  match comps with
  | [] => (d, true)
  | x :: rest =>
      if str_eqb x [] || str_eqb x DOT then mkdir_p d cur rest
      else if str_eqb x DOTDOT then mkdir_p d (parent cur) rest
      else
        match lookup d (cur ++ [x]) with
        | Some Dir => mkdir_p d (cur ++ [x]) rest
        | Some (File _) => (d, false)
        | None => mkdir_p (set_node d (cur ++ [x]) Dir) (cur ++ [x]) rest
        end
  end.

Definition disk_makedirs (p : str) (d : disk) : disk * bool :=
  if path_ok p then mkdir_p d (start d p) (split_sep p) else (d, false).

#[export] Instance disk_fs : FileSystem disk := {
  zip_open p d := archives d p;
  read_text := disk_read_text;
  read_bytes := disk_read_bytes;
  write_text := disk_write_text;
  write_bytes := disk_write_bytes;
  makedirs := disk_makedirs
}.

(** A disk with an empty root directory as working directory and one
    archive. *)
Definition with_archive (zip_path : str) (zf : archive) : disk :=
  {| nodes := fun _ => None;
     cwd := [];
     archives := fun p => if str_eqb p zip_path then Some zf else None |}.

End Disk.

(** ** Definitions used to state the properties *)

(** The members [pack] encodes: the ones that are not directories, in the
    order of the archive. *)
Definition file_members (zf : archive) : list member :=
  filter (fun info => negb (is_dir info)) zf.

(** The pair of one member, as the specification words it:
    <escaped-key>:"<base64>". *)
Definition pair_text (info : member) : str :=
  Json.dumps (filename info) ++ [COLON; QUOTE]
  ++ Base64.b64encode (payload info) ++ [QUOTE].

(** Texts with a comma between them (none before the first). *)
Fixpoint comma_separated (texts : list str) : str :=
  match texts with
  | [] => []
  | [t] => t
  | t :: rest => t ++ COMMA :: comma_separated rest
  end.

(** The container of an archive as the specification describes it. *)
Definition container_text (zf : archive) : str :=
  LBRACE :: comma_separated (map pair_text (file_members zf)) ++ [RBRACE].

(** The entries a container of [zf] holds, in archive order. *)
Definition container_entries (zf : archive) : list (str * Json.json) :=
  map (fun info => (filename info, Json.JStr (Base64.b64encode (payload info))))
      (file_members zf).

(** A code point a decoded archive name can hold: a Unicode scalar value
    (the decoders of zipfile produce no surrogate). *)
Definition scalar_value (c : N) : Prop :=
  c < 0x110000 /\ ~ (0xD800 <= c <= 0xDFFF).

Definition valid_name (name : str) : Prop := Forall scalar_value name.

(** An entry whose value [base64.b64decode] rejects. *)
Definition bad_entry (kv : str * Json.json) : bool :=
  match b64decode_value (snd kv) with
  | None => true
  | Some _ => false
  end.

Definition good_entry (kv : str * Json.json) : bool := negb (bad_entry kv).

Definition is_string (v : Json.json) : Prop := exists s, v = Json.JStr s.

(** ** The loops of [unpack], seen from outside *)

(** What one entry does to the environment and to the count, whatever the
    branch: the projection of [stream_entry] and [bulk_entry] that forgets
    what they print. *)
Definition entry_effect {W} `{FileSystem W} (output_dir : str)
  (wn : W * nat) (kv : str * Json.json) : W * nat :=
  match b64decode_value (snd kv) with
  | None => wn
  | Some content =>
      let full_path := PosixPath.join output_dir (fst kv) in
      let r1 := makedirs (PosixPath.dirname full_path) (fst wn) in
      if snd r1 then
        let r2 := write_bytes full_path content (fst r1) in
        if snd r2 then (fst r2, S (snd wn)) else (fst r2, snd wn)
      else (fst r1, snd wn)
  end.

(** The entries a branch of [unpack] iterates over when its parser does not
    raise. *)
Definition entries_seen {W} `{FileSystem W} (streaming : bool)
  (lica_path : str) (w : W) : option (list (str * Json.json)) :=
  if streaming then
    match read_bytes lica_path w with
    | Some data =>
        match Ijson.kvitems data with
        | (pairs, true) => Some pairs
        | (_, false) => None
        end
    | None => None
    end
  else
    match json_load lica_path w with
    | Some data => items data
    | None => None
    end.

Definition files_and_count {W} (st : unpack_state W) : W * nat :=
  (fs st, count st).

(** The loop body of either branch. *)
Definition entry_step {W} `{FileSystem W} (streaming : bool) (output_dir : str)
  : unpack_state W -> str * Json.json -> unpack_state W :=
  if streaming then stream_entry output_dir else bulk_entry output_dir.

(** The entry [pack] writes for a member. *)
Definition entry_of (m : member) : str * Json.json :=
  (filename m, Json.JStr (Base64.b64encode (payload m))).

(** ** Definitions used in the proofs *)

(** Checking a property for all numbers below a bound. *)
Fixpoint all_below (n : nat) (p : N -> bool) : bool :=
  match n with
  | O => true
  | S k => p (N.of_nat k) && all_below k p
  end.

Definition pair_below (p : N -> N -> bool) : bool :=
  all_below 256 (fun a => all_below 256 (fun b => p a b)).

(** The four sextets of a group of three bytes. *)
Definition sx0 (a : N) := N.shiftr a 2.
Definition sx1 (a b : N) := N.lor (N.shiftl (N.land a 3) 4) (N.shiftr b 4).
Definition sx2 (b c : N) := N.lor (N.shiftl (N.land b 15) 2) (N.shiftr c 6).
Definition sx3 (c : N) := N.land c 63.

Definition consk (c : N) (res : option (str * str)) : option (str * str) :=
  match res with
  | Some (k, r) => Some (c :: k, r)
  | None => None
  end.

(** A character that stands for itself inside a JSON string. *)
Definition plain (c : N) : Prop := c <> QUOTE /\ c <> BACKSLASH /\ 32 <= c.

(** The text of the pairs after the opening quote of the first key. *)
Fixpoint members_text (ms : list member) : str :=
  match ms with
  | [] => []
  | m :: rest =>
      flat_map Json.escape_char (filename m) ++
      QUOTE :: COLON :: QUOTE :: Base64.b64encode (payload m) ++
      QUOTE :: match rest with
               | [] => []
               | _ :: _ => COMMA :: QUOTE :: members_text rest
               end
  end.

Definition ascii_text (s : str) : Prop := Forall (fun c => c < 128) s.

Definition is_nil {A} (l : list A) : bool :=
  match l with [] => true | _ :: _ => false end.

Definition noslash (x : str) : Prop :=
  forallb (fun c => negb (c =? SLASH)) x = true.

Definition nonul (x : str) : Prop :=
  forallb (fun c => negb (c =? 0)) x = true.

(** ** Trees and names *)

Module DiskInv.
Import Disk.

(** A tree: the working directory is a directory, and so is the parent of
    every node. *)
Definition wf (d : disk) : Prop :=
  is_dir_node d (cwd d) = true /\
  forall c, nodes d c <> None -> is_dir_node d (parent c) = true.

(** [d'] has the directories of [d], and the same working directory. *)
Definition dirs_kept (d d' : disk) : Prop :=
  cwd d' = cwd d /\
  forall c, is_dir_node d c = true -> is_dir_node d' c = true.

End DiskInv.

Module Names.
Import Disk.

(** '/'.join(cs) *)
Fixpoint unsplit (cs : list str) : str :=
  match cs with
  | [] => []
  | [c] => c
  | c :: r => c ++ SLASH :: unsplit r
  end.

(** A component that names a node below the directory it is looked up in:
    not empty, not [.] or [..], without a slash or a NUL. *)
Definition plain_comp (x : str) : bool :=
  negb (str_eqb x []) && negb (str_eqb x DOT) && negb (str_eqb x DOTDOT)
  && forallb (fun c => negb (c =? 0) && negb (c =? SLASH)) x.

Definition scalar_valueb (c : N) : bool :=
  (c <? 0x110000) && negb ((0xD800 <=? c) && (c <=? 0xDFFF)).

(** A member name that is a relative path of plain components. *)
Definition portable_name (n : str) : bool :=
  forallb plain_comp (split_sep n) && forallb scalar_valueb n.

Fixpoint is_prefix (a b : cpath) : bool :=
  match a, b with
  | [], _ => true
  | x :: a', y :: b' => str_eqb x y && is_prefix a' b'
  | _ :: _, [] => false
  end.

(** Two paths of which one leads through (or to) the other. *)
Definition clash (a b : cpath) : bool := is_prefix a b || is_prefix b a.

Fixpoint no_clash (l : list cpath) : bool :=
  match l with
  | [] => true
  | x :: r => forallb (fun y => negb (clash x y)) r && no_clash r
  end.

Definition comps (m : member) : cpath := split_sep (filename m).

(** An archive whose files can all be written below one directory: the
    names are portable and no name is another one or leads through it. *)
Definition portable_archive (zf : archive) : bool :=
  forallb (fun m => portable_name (filename m)) (file_members zf)
  && no_clash (map comps (file_members zf)).

End Names.

Module TreeInv.
Import Disk Names.

(** The nodes [os.makedirs] passes through below [cur]. *)
Definition chain (cur : cpath) (cs : list str) (c : cpath) : Prop :=
  exists pre suf, cs = pre ++ suf /\ pre <> [] /\ c = cur ++ pre.

(** The output directory [cw/out] while the members [done] have been
    written below it: it holds their files, the directories leading to
    them, and nothing else. *)
Record inv (cw : cpath) (out : str) (done : list member) (d : disk) : Prop := {
  inv_cwd : cwd d = cw;
  inv_cw_dir : is_dir_node d cw = true;
  inv_base : lookup d (cw ++ [out]) = Some Dir;
  inv_files : forall suf data,
    lookup d (cw ++ out :: suf) = Some (File data) ->
    exists m, In m done /\ suf = comps m /\ data = payload m;
  inv_dirs : forall suf, suf <> [] ->
    lookup d (cw ++ out :: suf) = Some Dir ->
    exists m rest, In m done /\ rest <> [] /\ comps m = suf ++ rest;
  inv_done : forall m, In m done ->
    lookup d (cw ++ out :: comps m) = Some (File (payload m)) /\
    forall pre suf, comps m = pre ++ suf -> suf <> [] ->
      lookup d (cw ++ out :: pre) = Some Dir
}.

End TreeInv.

(** ** Sample archives and containers *)

Module Samples.

(** The example of the specification: [hello.txt] with the bytes [hi]. *)
Definition hello : archive :=
  [ {| filename := u "hello.txt"; payload := bytes_of "hi" |} ].

(** A directory member and a file below it. *)
Definition nested : archive :=
  [ {| filename := u "a/"; payload := [] |};
    {| filename := u "a/b/c.txt"; payload := bytes_of "x" |} ].

Definition only_directory : archive :=
  [ {| filename := u "d/"; payload := [] |} ].

(** An archive with two members of one name (zipfile writes such archives
    with a warning and reads them back as two members). *)
Definition same_name_twice : archive :=
  [ {| filename := u "a"; payload := bytes_of "x" |};
    {| filename := u "a"; payload := bytes_of "y" |} ].

(** A container with an undecodable value (three characters) before a
    good one. *)
Definition one_bad_entry : str :=
  [LBRACE] ++ Json.dumps (u "bad") ++ [COLON] ++ Json.dumps (u "aGk")
  ++ [COMMA] ++ Json.dumps (u "ok") ++ [COLON] ++ Json.dumps (u "aGk=")
  ++ [RBRACE].

(** An empty working directory in which [text] was written to [c.lica]. *)
Definition disk_with (text : str) : Disk.disk :=
  fst (Disk.disk_write_text (u "c.lica") text (Disk.with_archive [] [])).

End Samples.

(** ** Definitions for further properties of the code *)

(** The counts at which a progress line is printed: the multiples of 100 up
    to [n]. *)
Definition progress_marks (n : nat) : list nat :=
  map (fun k => 100 * k)%nat (seq 1 (n / 100)).

Definition is_entry_failed (m : message) : bool :=
  match m with
  | MsgEntryFailed _ => true
  | _ => false
  end.

(** The number of entries a run reported as failed. *)
Definition failures (log : list message) : nat :=
  List.length (filter is_entry_failed log).

(** The value of the last pair with key [k]. *)
Fixpoint last_value (k : str) (pairs : list (str * Json.json)) : option Json.json :=
  match pairs with
  | [] => None
  | (k', v) :: r =>
      match last_value k r with
      | Some v' => Some v'
      | None => if str_eqb k' k then Some v else None
      end
  end.

(** The value of the first pair with key [k]. *)
Fixpoint first_value (k : str) (d : list (str * Json.json)) : option Json.json :=
  match d with
  | [] => None
  | (k', v) :: r => if str_eqb k' k then Some v else first_value k r
  end.

(** The counts of the progress lines of [unpack] in what a run printed. *)
Definition unpack_progress (log : list message) : list nat :=
  flat_map (fun m => match m with MsgUnpackProgress n => [n] | _ => [] end) log.

Module MoreSamples.

(** An archive of 250 small files. *)
Definition many_files : archive :=
  map (fun k => {| filename := [1000 + N.of_nat k]; payload := [] |}) (seq 0 250).

(** A name with a quote, a character outside ASCII and one outside the
    basic plane. *)
Definition odd_name : str := [QUOTE; 0x4E2D; 0x1F600; 47; 97].

End MoreSamples.

(** * Properties *)

Lemma all_below_spec (n : nat) (p : N -> bool) :
  all_below n p = true -> forall x, x < N.of_nat n -> p x = true.
Proof.
  induction n as [|k IH]; simpl; intros Hall x Hx.
  - lia.
  - apply andb_true_iff in Hall as [Hk Hrest].
    destruct (N.eq_dec x (N.of_nat k)) as [->|Hne]; [exact Hk|].
    apply IH; [exact Hrest|lia].
Qed.

Lemma to_N_lt (x : byte) : Byte.to_N x < 256.
Proof. pose proof (Byte.to_N_bounded x). lia. Qed.

Lemma byte_of_to_N (x : byte) : byte_of_N (Byte.to_N x) = x.
Proof.
  unfold byte_of_N. rewrite N.mod_small by apply to_N_lt.
  now rewrite Byte.of_to_N.
Qed.

Module Base64Facts.
Import Base64.

Lemma b2a_a2b v : v < 64 -> a2b (b2a v) = Some v /\ (b2a v =? PAD) = false.
Proof.
  intros Hv.
  assert (H : all_below 64 (fun v =>
            match a2b (b2a v) with Some v' => v' =? v | None => false end
            && negb (b2a v =? PAD)) = true) by (vm_compute; reflexivity).
  apply all_below_spec with (x := v) in H; [|exact Hv].
  apply andb_true_iff in H as [H1 H2].
  destruct (a2b (b2a v)) as [v'|]; [|discriminate].
  apply N.eqb_eq in H1. subst v'.
  apply negb_true_iff in H2. now split.
Qed.

Lemma b2a_ascii v : b2a v < 128.
Proof.
  unfold b2a.
  repeat match goal with |- context [if ?c then _ else _] => destruct c eqn:? end;
  rewrite ?N.ltb_lt, ?N.eqb_eq in *; lia.
Qed.

Lemma pair_below_spec p :
  pair_below p = true -> forall a b, a < 256 -> b < 256 -> p a b = true.
Proof.
  intros H a b Ha Hb.
  apply (all_below_spec 256 _ H) in Ha.
  exact (all_below_spec 256 _ Ha b Hb).
Qed.

Lemma group_facts a b : a < 256 -> b < 256 ->
  sx0 a < 64 /\ sx1 a b < 64 /\ sx2 a b < 64 /\ sx3 a < 64 /\
  N.lor (N.shiftl (sx0 a) 2) (N.shiftr (sx1 a b) 4) = a /\
  N.land (sx1 a b) 15 = N.shiftr b 4 /\
  N.lor (N.shiftl (N.shiftr a 4) 4) (N.shiftr (sx2 a b) 2) = a /\
  N.land (sx2 a b) 3 = N.shiftr b 6 /\
  N.lor (N.shiftl (N.shiftr a 6) 6) (sx3 a) = a.
Proof.
  intros Ha Hb.
  assert (H : pair_below (fun a b =>
     (sx0 a <? 64) && (sx1 a b <? 64) && (sx2 a b <? 64) && (sx3 a <? 64)
     && (N.lor (N.shiftl (sx0 a) 2) (N.shiftr (sx1 a b) 4) =? a)
     && (N.land (sx1 a b) 15 =? N.shiftr b 4)
     && (N.lor (N.shiftl (N.shiftr a 4) 4) (N.shiftr (sx2 a b) 2) =? a)
     && (N.land (sx2 a b) 3 =? N.shiftr b 6)
     && (N.lor (N.shiftl (N.shiftr a 6) 6) (sx3 a) =? a)) = true)
    by (vm_compute; reflexivity).
  pose proof (pair_below_spec _ H a b Ha Hb) as K. cbv beta in K. clear H.
  repeat (apply andb_true_iff in K as [K ?]).
  rewrite ?N.ltb_lt, ?N.eqb_eq in *. repeat split; assumption.
Qed.

End Base64Facts.

Module Base64Round.
Import Base64 Base64Facts.

Lemma a2b_loop_step0 v rest acc : v < 64 ->
  a2b_loop (b2a v :: rest) 0 0 0 acc = a2b_loop rest 1 v 0 acc.
Proof.
  intros Hv. destruct (b2a_a2b v Hv) as [E1 E2].
  cbn [a2b_loop]. now rewrite E2, E1.
Qed.

Lemma a2b_loop_step1 v l rest acc : v < 64 ->
  a2b_loop (b2a v :: rest) 1 l 0 acc
  = a2b_loop rest 2 (N.land v 15) 0
      (byte_of_N (N.lor (N.shiftl l 2) (N.shiftr v 4)) :: acc).
Proof.
  intros Hv. destruct (b2a_a2b v Hv) as [E1 E2].
  cbn [a2b_loop]. now rewrite E2, E1.
Qed.

Lemma a2b_loop_step2 v l rest acc : v < 64 ->
  a2b_loop (b2a v :: rest) 2 l 0 acc
  = a2b_loop rest 3 (N.land v 3) 0
      (byte_of_N (N.lor (N.shiftl l 4) (N.shiftr v 2)) :: acc).
Proof.
  intros Hv. destruct (b2a_a2b v Hv) as [E1 E2].
  cbn [a2b_loop]. now rewrite E2, E1.
Qed.

Lemma a2b_loop_step3 v l rest acc : v < 64 ->
  a2b_loop (b2a v :: rest) 3 l 0 acc
  = a2b_loop rest 0 0 0 (byte_of_N (N.lor (N.shiftl l 6) v) :: acc).
Proof.
  intros Hv. destruct (b2a_a2b v Hv) as [E1 E2].
  cbn [a2b_loop]. now rewrite E2, E1.
Qed.

Lemma a2b_loop_encode (n : nat) : forall data acc,
  (List.length data <= n)%nat ->
  a2b_loop (b64encode data) 0 0 0 acc = Some (rev acc ++ data).
Proof.
  induction n as [|n IH]; intros data acc Hlen.
  - destruct data; [|simpl in Hlen; lia]. simpl. now rewrite app_nil_r.
  - destruct data as [|x [|y [|z rest]]].
    + simpl. now rewrite app_nil_r.
    + (* one byte *)
      pose proof (to_N_lt x) as Hx.
      destruct (group_facts (Byte.to_N x) 0 Hx ltac:(lia))
        as (H0 & H1 & _ & _ & E1 & _).
      unfold b64encode.
      change (N.shiftr (Byte.to_N x) 2) with (sx0 (Byte.to_N x)).
      replace (N.shiftl (N.land (Byte.to_N x) 3) 4) with (sx1 (Byte.to_N x) 0)
        by (unfold sx1; now rewrite N.shiftr_0_l, N.lor_0_r).
      rewrite a2b_loop_step0, a2b_loop_step1 by assumption.
      rewrite E1, byte_of_to_N. cbn. now rewrite <- ?app_assoc.
    + (* two bytes *)
      pose proof (to_N_lt x) as Hx. pose proof (to_N_lt y) as Hy.
      destruct (group_facts (Byte.to_N x) (Byte.to_N y) Hx Hy)
        as (H0 & H1 & _ & _ & E1 & E2 & _).
      destruct (group_facts (Byte.to_N y) 0 Hy ltac:(lia))
        as (_ & _ & H2 & _ & _ & _ & E3 & _).
      unfold b64encode.
      change (N.shiftr (Byte.to_N x) 2) with (sx0 (Byte.to_N x)).
      change (N.lor (N.shiftl (N.land (Byte.to_N x) 3) 4) (N.shiftr (Byte.to_N y) 4))
        with (sx1 (Byte.to_N x) (Byte.to_N y)).
      replace (N.shiftl (N.land (Byte.to_N y) 15) 2) with (sx2 (Byte.to_N y) 0)
        by (unfold sx2; now rewrite N.shiftr_0_l, N.lor_0_r).
      rewrite a2b_loop_step0, a2b_loop_step1, a2b_loop_step2 by assumption.
      rewrite E1, E2, E3, !byte_of_to_N. cbn. now rewrite <- ?app_assoc.
    + (* three bytes and more *)
      pose proof (to_N_lt x) as Hx. pose proof (to_N_lt y) as Hy.
      pose proof (to_N_lt z) as Hz.
      destruct (group_facts (Byte.to_N x) (Byte.to_N y) Hx Hy)
        as (H0 & H1 & _ & _ & E1 & E2 & _).
      destruct (group_facts (Byte.to_N y) (Byte.to_N z) Hy Hz)
        as (_ & _ & H2 & _ & _ & _ & E3 & E4 & _).
      destruct (group_facts (Byte.to_N z) 0 Hz ltac:(lia))
        as (_ & _ & _ & H3 & _ & _ & _ & _ & E5).
      change (b64encode (x :: y :: z :: rest)) with
        (b2a (sx0 (Byte.to_N x)) :: b2a (sx1 (Byte.to_N x) (Byte.to_N y))
         :: b2a (sx2 (Byte.to_N y) (Byte.to_N z)) :: b2a (sx3 (Byte.to_N z))
         :: b64encode rest).
      rewrite a2b_loop_step0, a2b_loop_step1, a2b_loop_step2, a2b_loop_step3
        by assumption.
      rewrite E1, E2, E3, E4, E5, !byte_of_to_N.
      rewrite IH by (simpl in Hlen; lia).
      cbn [rev]. now rewrite <- ?app_assoc.
Qed.

Lemma b64encode_ascii data : forallb (fun c => c <? 128) (b64encode data) = true.
Proof.
  assert (H : forall n data, (List.length data <= n)%nat ->
            forallb (fun c => c <? 128) (b64encode data) = true).
  { clear data. induction n as [|n IH]; intros data Hlen.
    - destruct data; [reflexivity|simpl in Hlen; lia].
    - assert (Hb : forall v, (b2a v <? 128) = true)
        by (intro v; apply N.ltb_lt, b2a_ascii).
      destruct data as [|x [|y [|z rest]]]; cbn [b64encode forallb];
        rewrite ?Hb; try reflexivity.
      apply IH. simpl in Hlen. lia. }
  now apply (H (List.length data)).
Qed.

Theorem b64decode_b64encode data : b64decode (b64encode data) = Some data.
Proof.
  unfold b64decode. rewrite b64encode_ascii.
  now rewrite (a2b_loop_encode (List.length data)).
Qed.

End Base64Round.

Module JsonFacts.
Import Json.

(** ** Bit arithmetic *)

Lemma lor_shiftl_add a b k : b < 2 ^ k -> N.lor (N.shiftl a k) b = a * 2 ^ k + b.
Proof.
  intros Hb.
  assert (Hland : N.land (N.shiftl a k) b = 0).
  { apply N.bits_inj. intros n. rewrite N.land_spec, N.bits_0.
    destruct (N.lt_ge_cases n k) as [Hlt|Hge].
    - now rewrite N.shiftl_spec_low.
    - rewrite <- (N.mod_small b (2 ^ k)) by exact Hb.
      rewrite N.mod_pow2_bits_high by exact Hge. apply andb_false_r. }
  rewrite <- N.lxor_lor by exact Hland.
  rewrite <- N.add_nocarry_lxor by exact Hland.
  now rewrite N.shiftl_mul_pow2.
Qed.

Lemma hexval_hexdigit d : d < 16 -> hexval (hexdigit d) = Some d.
Proof.
  intros Hd.
  assert (H : all_below 16 (fun d =>
            match hexval (hexdigit d) with Some m => m =? d | None => false end) = true)
    by (vm_compute; reflexivity).
  apply all_below_spec with (x := d) in H; [|exact Hd].
  destruct (hexval (hexdigit d)) as [m|]; [|discriminate].
  apply N.eqb_eq in H. now subst.
Qed.

Lemma nibble_lt x : N.land x 15 < 16.
Proof.
  change 15 with (N.ones 4). rewrite N.land_ones. apply N.mod_lt. discriminate.
Qed.

(** A number below [0x10000] is its four hexadecimal digits. *)
Lemma nibbles n : n < 65536 ->
  N.lor (N.shiftl (N.land (N.shiftr n 12) 15) 12)
    (N.lor (N.shiftl (N.land (N.shiftr n 8) 15) 8)
       (N.lor (N.shiftl (N.land (N.shiftr n 4) 15) 4) (N.land n 15))) = n.
Proof.
  intros Hn.
  pose proof (nibble_lt n) as H0. pose proof (nibble_lt (N.shiftr n 4)) as H1.
  pose proof (nibble_lt (N.shiftr n 8)) as H2.
  rewrite (lor_shiftl_add _ _ 4) by exact H0.
  rewrite (lor_shiftl_add _ _ 8)
    by (change (2 ^ 4) with 16; change (2 ^ 8) with 256; lia).
  rewrite (lor_shiftl_add _ _ 12)
    by (change (2 ^ 4) with 16; change (2 ^ 8) with 256;
        change (2 ^ 12) with 4096; lia).
  clear H0 H1 H2.
  change 15 with (N.ones 4). rewrite !N.land_ones, !N.shiftr_div_pow2.
  change (2 ^ 4) with 16; change (2 ^ 8) with 256; change (2 ^ 12) with 4096.
  pose proof (N.div_mod n 16 ltac:(discriminate)) as E0.
  pose proof (N.div_mod (n / 16) 16 ltac:(discriminate)) as E1.
  pose proof (N.div_mod (n / 256) 16 ltac:(discriminate)) as E2.
  rewrite (N.Div0.div_div n 16 16) in E1.
  rewrite (N.Div0.div_div n 256 16) in E2.
  change (16 * 16) with 256 in E1. change (256 * 16) with 4096 in E2.
  assert (E3 : n / 4096 < 16) by (apply N.Div0.div_lt_upper_bound; exact Hn).
  rewrite (N.mod_small (n / 4096) 16) by exact E3.
  lia.
Qed.

Lemma hex4_decode n : n < 65536 ->
  exists h1 h2 h3 h4, hex4 n = [h1; h2; h3; h4] /\ decode_hex4 h1 h2 h3 h4 = Some n.
Proof.
  intros Hn. unfold hex4. do 4 eexists. split; [reflexivity|].
  unfold decode_hex4. rewrite !hexval_hexdigit by apply nibble_lt.
  now rewrite nibbles.
Qed.

Lemma surrogates_join c : 0x10000 <= c < 0x110000 ->
  let v := c - 0x10000 in
  let s1 := N.lor 0xD800 (N.land (N.shiftr v 10) 0x3FF) in
  let s2 := N.lor 0xDC00 (N.land v 0x3FF) in
  s1 < 65536 /\ s2 < 65536 /\ is_high_surrogate s1 = true /\
  is_low_surrogate s2 = true /\ join_surrogates s1 s2 = c.
Proof.
  intros Hc v s1 s2.
  assert (Hv : v < 2 ^ 20) by (unfold v; change (2 ^ 20) with 1048576; lia).
  set (hi := v / 2 ^ 10). set (lo := v mod 2 ^ 10).
  assert (Hhi : hi < 2 ^ 10).
  { unfold hi. apply N.Div0.div_lt_upper_bound.
    now rewrite <- N.pow_add_r. }
  assert (Hlo : lo < 2 ^ 10) by (unfold lo; apply N.mod_lt; now compute).
  assert (Hvd : v = hi * 2 ^ 10 + lo).
  { unfold hi, lo. rewrite N.mul_comm. apply N.div_mod'. }
  assert (E1 : N.land (N.shiftr v 10) 0x3FF = hi).
  { change 0x3FF with (N.ones 10). rewrite N.land_ones, N.shiftr_div_pow2.
    now apply N.mod_small. }
  assert (E2 : N.land v 0x3FF = lo).
  { change 0x3FF with (N.ones 10). now rewrite N.land_ones. }
  assert (S1 : s1 = 0xD800 + hi).
  { unfold s1. rewrite E1. change 0xD800 with (N.shiftl 54 10).
    rewrite lor_shiftl_add by exact Hhi. reflexivity. }
  assert (S2 : s2 = 0xDC00 + lo).
  { unfold s2. rewrite E2. change 0xDC00 with (N.shiftl 55 10).
    rewrite lor_shiftl_add by exact Hlo. reflexivity. }
  change (2 ^ 10) with 1024 in *.
  unfold is_high_surrogate, is_low_surrogate, join_surrogates.
  rewrite S1, S2.
  repeat split; try lia.
  - apply andb_true_iff. split; apply N.leb_le; lia.
  - apply andb_true_iff. split; apply N.leb_le; lia.
  - replace (0xD800 + hi - 0xD800) with hi by lia.
    replace (0xDC00 + lo - 0xDC00) with lo by lia.
    rewrite lor_shiftl_add by (change (2 ^ 10) with 1024; exact Hlo).
    change (2 ^ 10) with 1024. unfold v in Hvd. lia.
Qed.

(** ** scanstring, one step at a time *)

Lemma scanstring_quote t : scanstring (QUOTE :: t) = Some ([], t).
Proof. reflexivity. Qed.

Lemma scanstring_plain c t :
  c <> QUOTE -> c <> BACKSLASH -> 32 <= c ->
  scanstring (c :: t) = consk c (scanstring t).
Proof.
  intros H1 H2 H3. cbn [scanstring].
  apply N.eqb_neq in H1, H2. rewrite H1, H2.
  assert (H4 : (c <? 32) = false) by (apply N.ltb_ge; exact H3).
  now rewrite H4.
Qed.

Lemma scanstring_simple e ch t :
  e <> 117 -> simple_escape e = Some ch ->
  scanstring (BACKSLASH :: e :: t) = consk ch (scanstring t).
Proof.
  intros H1 H2. cbn [scanstring].
  change (BACKSLASH =? QUOTE) with false.
  change (BACKSLASH =? BACKSLASH) with true. cbv iota.
  apply N.eqb_neq in H1. now rewrite H1, H2.
Qed.

Lemma scanstring_u_single h1 h2 h3 h4 uni t :
  decode_hex4 h1 h2 h3 h4 = Some uni -> is_high_surrogate uni = false ->
  scanstring (BACKSLASH :: 117 :: h1 :: h2 :: h3 :: h4 :: t)
  = consk uni (scanstring t).
Proof.
  intros H1 H2. cbn [scanstring].
  change (BACKSLASH =? QUOTE) with false.
  change (BACKSLASH =? BACKSLASH) with true.
  change (117 =? 117) with true. cbv iota.
  now rewrite H1, H2.
Qed.

Lemma scanstring_u_pair h1 h2 h3 h4 g1 g2 g3 g4 hi lo t :
  decode_hex4 h1 h2 h3 h4 = Some hi -> is_high_surrogate hi = true ->
  decode_hex4 g1 g2 g3 g4 = Some lo -> is_low_surrogate lo = true ->
  scanstring (BACKSLASH :: 117 :: h1 :: h2 :: h3 :: h4
              :: BACKSLASH :: 117 :: g1 :: g2 :: g3 :: g4 :: t)
  = consk (join_surrogates hi lo) (scanstring t).
Proof.
  intros H1 H2 H3 H4. cbn [scanstring].
  change (BACKSLASH =? QUOTE) with false.
  change (BACKSLASH =? BACKSLASH) with true.
  change (117 =? 117) with true. cbv iota.
  rewrite H1, H2. cbn [andb]. now rewrite H3, H4.
Qed.


Lemma hexval_not_high c : scalar_value c -> c < 0x10000 ->
  is_high_surrogate c = false.
Proof.
  intros [_ Hs] _. unfold is_high_surrogate.
  apply andb_false_iff.
  destruct (N.leb_spec 0xD800 c) as [H1|H1]; [|now left].
  right. apply N.leb_gt. lia.
Qed.

Lemma scanstring_escape_char c t : scalar_value c ->
  scanstring (escape_char c ++ t) = consk c (scanstring t).
Proof.
  intros Hc. unfold escape_char.
  destruct (N.eqb_spec c QUOTE) as [->|H1].
  { cbn [app]. now rewrite (scanstring_simple QUOTE QUOTE). }
  destruct (N.eqb_spec c BACKSLASH) as [->|H2].
  { cbn [app]. now rewrite (scanstring_simple BACKSLASH BACKSLASH). }
  destruct (N.eqb_spec c 10) as [->|H3].
  { cbn [app]. now rewrite (scanstring_simple 110 10). }
  destruct (N.eqb_spec c 13) as [->|H4].
  { cbn [app]. now rewrite (scanstring_simple 114 13). }
  destruct (N.eqb_spec c 9) as [->|H5].
  { cbn [app]. now rewrite (scanstring_simple 116 9). }
  destruct (N.eqb_spec c 8) as [->|H6].
  { cbn [app]. now rewrite (scanstring_simple 98 8). }
  destruct (N.eqb_spec c 12) as [->|H7].
  { cbn [app]. now rewrite (scanstring_simple 102 12). }
  destruct ((32 <=? c) && (c <=? 126)) eqn:Hp.
  { apply andb_true_iff in Hp as [Hp _]. apply N.leb_le in Hp.
    cbn [app]. now apply scanstring_plain. }
  destruct (N.ltb_spec c 0x10000) as [Hb|Hb].
  - destruct (hex4_decode c Hb) as (h1 & h2 & h3 & h4 & E & D).
    rewrite E. cbn [app].
    apply scanstring_u_single; [exact D|].
    now apply hexval_not_high.
  - assert (Hr : 0x10000 <= c < 0x110000) by (destruct Hc; lia).
    destruct (surrogates_join c Hr) as (B1 & B2 & Hh & Hl & J).
    cbv zeta.
    destruct (hex4_decode _ B1) as (h1 & h2 & h3 & h4 & E1 & D1).
    destruct (hex4_decode _ B2) as (g1 & g2 & g3 & g4 & E2 & D2).
    rewrite E1, E2. cbn [app].
    rewrite (scanstring_u_pair _ _ _ _ _ _ _ _ _ _ _ D1 Hh D2 Hl).
    now rewrite J.
Qed.

Lemma scanstring_escaped name t : valid_name name ->
  scanstring (flat_map escape_char name ++ QUOTE :: t) = Some (name, t).
Proof.
  induction 1 as [|c name Hc _ IH]; cbn [flat_map app].
  - apply scanstring_quote.
  - rewrite <- app_assoc, scanstring_escape_char by exact Hc.
    now rewrite IH.
Qed.

Lemma scanstring_plain_str s t : Forall plain s ->
  scanstring (s ++ QUOTE :: t) = Some (s, t).
Proof.
  induction 1 as [|c s (H1 & H2 & H3) _ IH]; cbn [app].
  - apply scanstring_quote.
  - rewrite scanstring_plain by assumption. now rewrite IH.
Qed.

Lemma b2a_plain v : plain (Base64.b2a v).
Proof.
  unfold plain, Base64.b2a, QUOTE, BACKSLASH.
  repeat match goal with |- context [if ?c then _ else _] => destruct c eqn:? end;
  rewrite ?N.ltb_lt, ?N.ltb_ge, ?N.eqb_eq in *; lia.
Qed.

Lemma pad_plain : plain PAD.
Proof. unfold plain, PAD, QUOTE, BACKSLASH. lia. Qed.

Lemma b64encode_plain data : Forall plain (Base64.b64encode data).
Proof.
  assert (H : forall n data, (List.length data <= n)%nat ->
            Forall plain (Base64.b64encode data)).
  { clear data. induction n as [|n IH]; intros data Hlen.
    - destruct data; [constructor|simpl in Hlen; lia].
    - destruct data as [|x [|y [|z rest]]]; cbn [Base64.b64encode];
        repeat (constructor; try apply b2a_plain; try apply pad_plain).
      apply IH. simpl in Hlen. lia. }
  now apply (H (List.length data)).
Qed.

End JsonFacts.

Module ContainerFacts.
Import Json JsonFacts.

Lemma scan_once_S consts fuel c rest :
  scan_once consts (S fuel) (c :: rest) =
  if c =? QUOTE then
    match scanstring rest with
    | Some (v, r) => Some (JStr v, r)
    | None => None
    end
  else if c =? LBRACE then
    match skip_ws rest with
    | d :: r =>
        if d =? RBRACE then Some (JObj [], r)
        else if d =? QUOTE then
          match parse_members consts fuel r with
          | Some (ps, r') => Some (JObj ps, r')
          | None => None
          end
        else None
    | [] => None
    end
  else if c =? LBRACKET then
    match skip_ws rest with
    | d :: r =>
        if d =? RBRACKET then Some (JArr [], r)
        else
          match parse_elements consts fuel (d :: r) with
          | Some (vs, r') => Some (JArr vs, r')
          | None => None
          end
    | [] => None
    end
  else if startswith (u "null") (c :: rest) then Some (JNull, skipn 4 (c :: rest))
  else if startswith (u "true") (c :: rest) then Some (JTrue, skipn 4 (c :: rest))
  else if startswith (u "false") (c :: rest) then Some (JFalse, skipn 5 (c :: rest))
  else if startswith (u "NaN") (c :: rest) then
    if consts then Some (JNum (u "NaN"), skipn 3 (c :: rest)) else None
  else if startswith (u "Infinity") (c :: rest) then
    if consts then Some (JNum (u "Infinity"), skipn 8 (c :: rest)) else None
  else if startswith (u "-Infinity") (c :: rest) then
    if consts then Some (JNum (u "-Infinity"), skipn 9 (c :: rest)) else None
  else
    match match_number (c :: rest) with
    | Some (lx, r) => Some (JNum lx, r)
    | None => None
    end.
Proof. reflexivity. Qed.

Lemma parse_members_S consts fuel s :
  parse_members consts (S fuel) s =
  match scanstring s with
  | None => None
  | Some (key, s1) =>
      match skip_ws s1 with
      | c :: s2 =>
          if c =? COLON then
            match scan_once consts fuel (skip_ws s2) with
            | None => None
            | Some (v, s3) =>
                match skip_ws s3 with
                | d :: s4 =>
                    if d =? RBRACE then Some ([(key, v)], s4)
                    else if d =? COMMA then
                      match skip_ws s4 with
                      | q :: s5 =>
                          if q =? QUOTE then
                            match parse_members consts fuel s5 with
                            | Some (ps, r) => Some ((key, v) :: ps, r)
                            | None => None
                            end
                          else None
                      | [] => None
                      end
                    else None
                | [] => None
                end
            end
          else None
      | [] => None
      end
  end.
Proof. reflexivity. Qed.

Lemma comma_separated_members m ms :
  comma_separated (map pair_text (m :: ms)) = QUOTE :: members_text (m :: ms).
Proof.
  revert m. induction ms as [|m' ms IH]; intros m.
  - cbn [map comma_separated members_text]. unfold pair_text, dumps.
    cbn [app]. rewrite <- !app_assoc. reflexivity.
  - change (comma_separated (map pair_text (m :: m' :: ms)))
      with (pair_text m ++ COMMA :: comma_separated (map pair_text (m' :: ms))).
    rewrite IH. cbn [members_text]. unfold pair_text, dumps.
    cbn [app]. repeat (rewrite <- ?app_assoc; cbn [app]). reflexivity.
Qed.

Lemma parse_members_text ms : forall fuel t,
  ms <> [] -> Forall (fun m => valid_name (filename m)) ms ->
  (List.length ms < fuel)%nat ->
  parse_members true fuel (members_text ms ++ RBRACE :: t)
  = Some (map entry_of ms, t).
Proof.
  induction ms as [|m ms IH]; intros fuel t Hne Hval Hfuel; [congruence|].
  inversion Hval as [|? ? Hm Hms]; subst.
  destruct fuel as [|fuel]; [simpl in Hfuel; lia|].
  rewrite parse_members_S. cbn [members_text].
  rewrite <- app_assoc. cbn [app].
  rewrite scanstring_escaped by exact Hm.
  cbn [skip_ws].
  change (is_ws COLON) with false. cbv iota.
  change (COLON =? COLON) with true. cbv iota.
  cbn [skip_ws]. change (is_ws QUOTE) with false. cbv iota.
  destruct fuel as [|fuel]; [simpl in Hfuel; lia|].
  rewrite scan_once_S. change (QUOTE =? QUOTE) with true. cbv iota.
  rewrite <- app_assoc. cbn [app].
  rewrite scanstring_plain_str by apply b64encode_plain.
  destruct ms as [|m' ms].
  - cbn [app skip_ws map]. reflexivity.
  - cbn [app skip_ws]. 
    change (is_ws COMMA) with false. cbv iota.
    change (COMMA =? RBRACE) with false.
    change (COMMA =? COMMA) with true. cbv iota.
    cbn [skip_ws]. change (is_ws QUOTE) with false. cbv iota.
    change (QUOTE =? QUOTE) with true. cbv iota.
    rewrite IH; [reflexivity|discriminate|exact Hms|].
    simpl in Hfuel |- *. lia.
Qed.


Lemma members_text_length ms : (List.length ms <= List.length (members_text ms))%nat.
Proof.
  induction ms as [|m ms IH]; [simpl; lia|].
  cbn [members_text]. rewrite length_app. cbn [List.length].
  rewrite length_app. cbn [List.length].
  destruct ms as [|m' ms]; [simpl; lia|].
  cbn [List.length] in *. lia.
Qed.

Lemma container_entries_map zf :
  container_entries zf = map entry_of (file_members zf).
Proof. reflexivity. Qed.

(** The container of an archive parses to its entries, in archive order. *)
Theorem loads_container_text zf :
  Forall (fun m => valid_name (filename m)) (file_members zf) ->
  loads (container_text zf) = Some (JObj (container_entries zf)).
Proof.
  intros Hval. unfold container_text, loads.
  change (scan_once true (fuel_for ?s) (skip_ws ?s))
    with (scan_once true (S (S (List.length s))) (skip_ws s)).
  rewrite container_entries_map.
  destruct (file_members zf) as [|m ms] eqn:E.
  - reflexivity.
  - rewrite comma_separated_members.
    cbn [app skip_ws]. change (is_ws LBRACE) with false. cbv iota.
    rewrite scan_once_S.
    change (LBRACE =? QUOTE) with false. change (LBRACE =? LBRACE) with true.
    cbv iota. cbn [skip_ws]. change (is_ws QUOTE) with false. cbv iota.
    change (QUOTE =? RBRACE) with false. change (QUOTE =? QUOTE) with true.
    cbv iota.
    rewrite parse_members_text; [reflexivity|discriminate|exact Hval|].
    pose proof (members_text_length (m :: ms)) as Hlen.
    cbn [List.length] in *. rewrite length_app. cbn [List.length]. lia.
Qed.

(** ** dict(pairs) *)

Lemma dict_set_fresh d k v :
  ~ In k (map fst d) -> dict_set d k v = d ++ [(k, v)].
Proof.
  induction d as [|[k' v'] d IH]; intros Hnin; [reflexivity|].
  cbn [dict_set]. unfold str_eqb.
  destruct (str_eq_dec k' k) as [->|Hne].
  - exfalso. apply Hnin. now left.
  - rewrite IH; [reflexivity|]. intros Hin. apply Hnin. now right.
Qed.

Lemma py_dict_acc pairs : forall acc,
  NoDup (map fst (acc ++ pairs)) ->
  fold_left (fun d kv => dict_set d (fst kv) (snd kv)) pairs acc = acc ++ pairs.
Proof.
  induction pairs as [|[k v] pairs IH]; intros acc Hnd.
  - now rewrite app_nil_r.
  - cbn [fold_left fst snd].
    rewrite dict_set_fresh.
    + rewrite IH; rewrite <- app_assoc; [reflexivity|exact Hnd].
    + rewrite map_app in Hnd. cbn [map fst] in Hnd.
      apply NoDup_remove_2 in Hnd. intros Hin. apply Hnd.
      apply in_or_app. now left.
Qed.

Theorem py_dict_nodup pairs : NoDup (map fst pairs) -> py_dict pairs = pairs.
Proof. intros Hnd. unfold py_dict. now rewrite py_dict_acc. Qed.

End ContainerFacts.

(** ** UTF-8 on ASCII text *)

Module Utf8Facts.

Lemma to_N_byte_of_N c : c < 256 -> Byte.to_N (byte_of_N c) = c.
Proof.
  intros Hc. unfold byte_of_N. rewrite N.mod_small by exact Hc.
  destruct (Byte.of_N c) as [b|] eqn:E.
  - now apply Byte.to_of_N.
  - apply Byte.of_N_None_iff in E. lia.
Qed.

Lemma encode_ascii s : ascii_text s -> Utf8.encode s = Some (map byte_of_N s).
Proof.
  induction 1 as [|c s Hc _ IH]; [reflexivity|].
  cbn [Utf8.encode map]. unfold Utf8.encode_char.
  apply N.ltb_lt in Hc. change 0x80 with 128. rewrite Hc, IH. reflexivity.
Qed.

Lemma decode_ascii s : ascii_text s -> Utf8.decode (map byte_of_N s) = Some s.
Proof.
  induction 1 as [|c s Hc _ IH]; [reflexivity|].
  cbn [Utf8.decode map]. cbv zeta.
  rewrite to_N_byte_of_N by lia.
  apply N.ltb_lt in Hc. change 0x80 with 128. rewrite Hc, IH. reflexivity.
Qed.

End Utf8Facts.

Module IjsonFacts.
Import Json Ijson ContainerFacts.

Lemma kv_members_S fuel s :
  kv_members (S fuel) s =
  match scanstring s with
  | None => ([], false)
  | Some (key, s1) =>
      match skip_ws s1 with
      | c :: s2 =>
          if c =? COLON then
            match scan_once false fuel (skip_ws s2) with
            | None => ([], false)
            | Some (v, s3) =>
                match skip_ws s3 with
                | d :: s4 =>
                    if d =? RBRACE then ([(key, v)], at_end s4)
                    else if d =? COMMA then
                      match skip_ws s4 with
                      | q :: s5 =>
                          if q =? QUOTE then
                            let (ps, ok) := kv_members fuel s5 in
                            ((key, v) :: ps, ok)
                          else ([(key, v)], false)
                      | [] => ([(key, v)], false)
                      end
                    else ([(key, v)], false)
                | [] => ([(key, v)], false)
                end
            end
          else ([], false)
      | [] => ([], false)
      end
  end.
Proof. reflexivity. Qed.

Ltac split_match H :=
  match type of H with
  | context [match ?x with _ => _ end] => destruct x eqn:?; try discriminate H
  end.

(** A value that parses to a string does so whatever the constants flag. *)
Lemma scan_once_string consts consts' fuel s v r :
  scan_once consts fuel s = Some (JStr v, r) ->
  scan_once consts' fuel s = Some (JStr v, r).
Proof.
  destruct fuel as [|fuel]; [discriminate|].
  destruct s as [|c rest]; [discriminate|].
  rewrite !scan_once_S.
  destruct (c =? QUOTE); [trivial|].
  intros H. exfalso.
  repeat split_match H; inversion H.
Qed.

(** Only a text that starts with a brace parses to an object. *)
Lemma scan_once_object consts fuel c rest ps r :
  scan_once consts (S fuel) (c :: rest) = Some (JObj ps, r) ->
  (c =? LBRACE) = true.
Proof.
  rewrite scan_once_S. intros H.
  destruct (c =? QUOTE).
  { destruct (scanstring rest) as [[k0 r0]|]; discriminate. }
  destruct (c =? LBRACE); [reflexivity|]. exfalso.
  repeat split_match H; inversion H.
Qed.

Lemma kv_members_agree fuel : forall s ps r,
  parse_members true fuel s = Some (ps, r) ->
  Forall (fun kv => is_string (snd kv)) ps ->
  kv_members fuel s = (ps, at_end r).
Proof.
  induction fuel as [|fuel IH]; intros s ps r H Hstr; [discriminate|].
  rewrite parse_members_S in H. rewrite kv_members_S.
  destruct (scanstring s) as [[key s1]|]; [|discriminate].
  destruct (skip_ws s1) as [|c s2]; [discriminate|].
  destruct (c =? COLON); [|discriminate].
  destruct (scan_once true fuel (skip_ws s2)) as [[v s3]|] eqn:Ev; [|discriminate].
  assert (Hv : is_string v).
  { destruct (skip_ws s3) as [|d s4]; [discriminate|].
    destruct (d =? RBRACE).
    - inversion H; subst. now inversion Hstr.
    - destruct (d =? COMMA); [|discriminate].
      destruct (skip_ws s4) as [|q s5]; [discriminate|].
      destruct (q =? QUOTE); [|discriminate].
      destruct (parse_members true fuel s5) as [[ps' r']|]; [|discriminate].
      inversion H; subst. now inversion Hstr. }
  destruct Hv as [sv ->].
  rewrite (scan_once_string _ false _ _ _ _ Ev).
  destruct (skip_ws s3) as [|d s4]; [discriminate|].
  destruct (d =? RBRACE).
  { now inversion H. }
  destruct (d =? COMMA); [|discriminate].
  destruct (skip_ws s4) as [|q s5]; [discriminate|].
  destruct (q =? QUOTE); [|discriminate].
  destruct (parse_members true fuel s5) as [[ps' r']|] eqn:Ep; [|discriminate].
  inversion H; subst. inversion Hstr; subst.
  now rewrite (IH _ _ _ Ep).
Qed.

(** On a document that [json.loads] parses to an object whose values are
    all strings, the streaming parser produces the same pairs and does not
    raise. *)
Theorem kvitems_text_agree text pairs :
  loads text = Some (JObj pairs) ->
  Forall (fun kv => is_string (snd kv)) pairs ->
  kvitems_text text = (pairs, true).
Proof.
  unfold loads, kvitems_text. intros H Hstr.
  assert (H' : match scan_once true (fuel_for text) (skip_ws text) with
               | Some (v, r) => match skip_ws r with [] => Some v | _ :: _ => None end
               | None => None
               end = Some (JObj pairs)).
  { destruct text as [|c0 t0]; [exact H|].
    destruct c0 as [|p0]; [exact H|].
    repeat (destruct p0 as [p0|p0|]; try exact H; try discriminate H). }
  clear H. unfold fuel_for in H'.
  destruct (skip_ws text) as [|c rest] eqn:Ews; [discriminate|].
  destruct (scan_once true (S (S (List.length text))) (c :: rest))
    as [[v r0]|] eqn:Es; [|discriminate].
  destruct (skip_ws r0) eqn:Er0; [|discriminate].
  inversion H'; subst v. clear H'.
  rewrite (scan_once_object _ _ _ _ _ _ Es).
  rewrite scan_once_S in Es.
  destruct (c =? QUOTE) eqn:Eq.
  { destruct (scanstring rest) as [[k0 r1]|]; discriminate. }
  rewrite (scan_once_object true (S (List.length text)) c rest pairs r0) in Es
    by (rewrite scan_once_S, Eq; exact Es).
  destruct (skip_ws rest) as [|d r]; [discriminate|].
  destruct (d =? RBRACE).
  - inversion Es; subst. unfold at_end. now rewrite Er0.
  - destruct (d =? QUOTE); [|discriminate].
    destruct (parse_members true (S (List.length text)) r) as [[ps r']|] eqn:Ep;
      [|discriminate].
    inversion Es; subst.
    rewrite (kv_members_agree _ _ _ _ Ep Hstr).
    unfold at_end. now rewrite Er0.
Qed.

End IjsonFacts.

Section Pack.
Context {W : Type} `{FileSystem W}.

Lemma comma_separated_snoc (x : str) xs t :
  comma_separated ((x :: xs) ++ [t]) = comma_separated (x :: xs) ++ COMMA :: t.
Proof.
  revert x. induction xs as [|y xs IH]; intros x.
  - reflexivity.
  - change (comma_separated ((x :: y :: xs) ++ [t]))
      with (x ++ COMMA :: comma_separated ((y :: xs) ++ [t])).
    rewrite IH.
    change (comma_separated (x :: y :: xs))
      with (x ++ COMMA :: comma_separated (y :: xs)).
    now rewrite <- app_assoc.
Qed.

Lemma pack_member_file st info done :
  is_dir info = false ->
  out_f st = LBRACE :: comma_separated (map pair_text done) ->
  first st = is_nil done ->
  file_count st = List.length done ->
  let st' := pack_member st info in
  out_f st' = LBRACE :: comma_separated (map pair_text (done ++ [info])) /\
  first st' = is_nil (done ++ [info]) /\
  file_count st' = List.length (done ++ [info]).
Proof.
  intros Hd Ho Hf Hc. unfold pack_member. rewrite Hd. cbn [out_f first file_count].
  rewrite Ho, Hf, Hc. repeat split.
  - destruct done as [|d done]; cbn [is_nil].
    + reflexivity.
    + rewrite map_app. cbn [map]. rewrite comma_separated_snoc.
      cbn [app]. rewrite <- app_assoc. reflexivity.
  - now destruct done.
  - rewrite length_app. simpl. lia.
Qed.

Lemma pack_fold zf : forall st done,
  out_f st = LBRACE :: comma_separated (map pair_text done) ->
  first st = is_nil done ->
  file_count st = List.length done ->
  let st' := fold_left pack_member zf st in
  out_f st' = LBRACE :: comma_separated (map pair_text (done ++ file_members zf)) /\
  file_count st' = List.length (done ++ file_members zf).
Proof.
  induction zf as [|info zf IH]; intros st done Ho Hf Hc.
  - cbn [fold_left file_members filter]. rewrite app_nil_r. now split.
  - cbn [fold_left]. unfold file_members. cbn [filter].
    destruct (is_dir info) eqn:Hd; cbn [negb].
    + replace (pack_member st info) with st by (unfold pack_member; now rewrite Hd).
      now apply IH.
    + destruct (pack_member_file st info done Hd Ho Hf Hc) as (Ho' & Hf' & Hc').
      specialize (IH _ _ Ho' Hf' Hc').
      rewrite <- app_assoc in IH. exact IH.
Qed.

(** The loop writes the container of the specification and counts the
    members that are not directories. *)
Lemma pack_loop_spec zf :
  out_f (pack_loop zf) ++ [RBRACE] = container_text zf /\
  file_count (pack_loop zf) = List.length (file_members zf).
Proof.
  destruct (pack_fold zf pack_init [] eq_refl eq_refl eq_refl) as [Ho Hc].
  unfold pack_loop, container_text. cbn [app] in Ho, Hc.
  rewrite Ho, Hc. now split.
Qed.

Lemma pack_loop_skips_directories zf :
  out_f (pack_loop zf) = out_f (pack_loop (file_members zf)) /\
  file_count (pack_loop zf) = file_count (pack_loop (file_members zf)).
Proof.
  assert (Hff : file_members (file_members zf) = file_members zf).
  { unfold file_members. induction zf as [|m zf IH]; [reflexivity|].
    cbn [filter]. destruct (negb (is_dir m)) eqn:E; [|exact IH].
    cbn [filter]. now rewrite E, IH. }
  destruct (pack_fold zf pack_init [] eq_refl eq_refl eq_refl) as [Ho Hc].
  destruct (pack_fold (file_members zf) pack_init [] eq_refl eq_refl eq_refl)
    as [Ho' Hc'].
  unfold pack_loop. rewrite Ho, Hc, Ho', Hc', Hff. now split.
Qed.

Lemma reported_count_pack_done (log : list message) n lp (w : W) :
  reported_count {| result := Returned; stdout := log ++ [MsgPackDone n lp]; final := w |}
  = Some n.
Proof. unfold reported_count. cbn [stdout]. now rewrite last_last. Qed.

Lemma reported_count_unpack_done (log : list message) n out (w : W) :
  reported_count {| result := Returned; stdout := log ++ [MsgUnpackDone n out]; final := w |}
  = Some n.
Proof. unfold reported_count. cbn [stdout]. now rewrite last_last. Qed.

(** What [pack] does once the archive is open. *)
Lemma pack_opened zp lp (w : W) zf :
  zip_open zp w = Some zf ->
  final (pack zp lp w) = fst (write_text lp (container_text zf) w) /\
  (snd (write_text lp (container_text zf) w) = true ->
   result (pack zp lp w) = Returned /\
   reported_count (pack zp lp w) = Some (List.length (file_members zf))) /\
  (snd (write_text lp (container_text zf) w) = false ->
   result (pack zp lp w) = Raised OSError).
Proof.
  intros Hz. unfold pack. rewrite Hz.
  destruct (pack_loop_spec zf) as [Ho Hc]. rewrite Ho, Hc.
  destruct (write_text lp (container_text zf) w) as [w' ok].
  cbn [fst snd]. destruct ok; cbn [final result].
  - repeat split; try discriminate. apply reported_count_pack_done.
  - repeat split; discriminate.
Qed.

End Pack.

Section Unpack.
Context {W : Type} `{FileSystem W}.

Lemma stream_entry_effect out st kv :
  files_and_count (stream_entry out st kv)
  = entry_effect out (files_and_count st) kv.
Proof.
  unfold stream_entry, entry_effect, files_and_count, entry_failed.
  destruct kv as [key v]. cbn [fst snd].
  destruct (b64decode_value v) as [content|]; [|reflexivity].
  destruct (makedirs _ (fs st)) as [w1 ok1]. cbn [fst snd].
  destruct ok1; [|reflexivity].
  destruct (write_bytes _ content w1) as [w2 ok2]. cbn [fst snd].
  now destruct ok2.
Qed.

Lemma bulk_entry_effect out st kv :
  files_and_count (bulk_entry out st kv)
  = entry_effect out (files_and_count st) kv.
Proof.
  unfold bulk_entry, entry_effect, files_and_count, entry_failed.
  destruct kv as [key v]. cbn [fst snd].
  destruct (b64decode_value v) as [content|]; [|reflexivity].
  destruct (makedirs _ (fs st)) as [w1 ok1]. cbn [fst snd].
  destruct ok1; [|reflexivity].
  destruct (write_bytes _ content w1) as [w2 ok2]. cbn [fst snd].
  now destruct ok2.
Qed.

Lemma fold_stream_effect out entries : forall st,
  files_and_count (fold_left (stream_entry out) entries st)
  = fold_left (entry_effect out) entries (files_and_count st).
Proof.
  induction entries as [|kv entries IH]; intros st; [reflexivity|].
  cbn [fold_left]. now rewrite IH, stream_entry_effect.
Qed.

Lemma fold_bulk_effect out entries : forall st,
  files_and_count (fold_left (bulk_entry out) entries st)
  = fold_left (entry_effect out) entries (files_and_count st).
Proof.
  induction entries as [|kv entries IH]; intros st; [reflexivity|].
  cbn [fold_left]. now rewrite IH, bulk_entry_effect.
Qed.

Lemma entry_effect_bad out wn kv :
  bad_entry kv = true -> entry_effect out wn kv = wn.
Proof.
  unfold bad_entry, entry_effect.
  now destruct (b64decode_value (snd kv)).
Qed.

Lemma fold_effect_good out entries : forall wn,
  fold_left (entry_effect out) entries wn
  = fold_left (entry_effect out) (filter good_entry entries) wn.
Proof.
  induction entries as [|kv entries IH]; intros wn; [reflexivity|].
  cbn [fold_left filter]. destruct (good_entry kv) eqn:Eg.
  - cbn [fold_left]. apply IH.
  - rewrite entry_effect_bad; [apply IH|].
    unfold good_entry in Eg. now destruct (bad_entry kv).
Qed.

Lemma entry_effect_count out wn kv :
  (snd wn <= snd (entry_effect out wn kv) <= S (snd wn))%nat.
Proof.
  unfold entry_effect.
  destruct (b64decode_value (snd kv)); [|lia].
  cbv zeta.
  destruct (snd (makedirs _ (fst wn))); [|simpl; lia].
  destruct (snd (write_bytes _ _ _)); simpl; lia.
Qed.

Lemma fold_effect_count out entries : forall wn,
  (snd (fold_left (entry_effect out) entries wn) <= snd wn + List.length entries)%nat.
Proof.
  induction entries as [|kv entries IH]; intros wn; cbn [fold_left List.length].
  - lia.
  - specialize (IH (entry_effect out wn kv)).
    pose proof (entry_effect_count out wn kv). lia.
Qed.

(** A failed entry is reported, whatever happens after it. *)
Lemma stream_entry_log_mono out st kv m :
  In m (unpack_log st) -> In m (unpack_log (stream_entry out st kv)).
Proof.
  intros Hin. unfold stream_entry, entry_failed. destruct kv as [key v].
  destruct (b64decode_value v); [|cbn; apply in_or_app; now left].
  destruct (makedirs _ _) as [w1 [|]]; [|cbn; apply in_or_app; now left].
  destruct (write_bytes _ _ _) as [w2 [|]]; cbn; apply in_or_app; now left.
Qed.

Lemma bulk_entry_log_mono out st kv m :
  In m (unpack_log st) -> In m (unpack_log (bulk_entry out st kv)).
Proof.
  intros Hin. unfold bulk_entry, entry_failed. destruct kv as [key v].
  destruct (b64decode_value v); [|cbn; apply in_or_app; now left].
  destruct (makedirs _ _) as [w1 [|]]; [|cbn; apply in_or_app; now left].
  destruct (write_bytes _ _ _) as [w2 [|]]; cbn; trivial.
  apply in_or_app; now left.
Qed.

Lemma fold_log_mono (step : unpack_state W -> str * Json.json -> unpack_state W) :
  (forall st kv m, In m (unpack_log st) -> In m (unpack_log (step st kv))) ->
  forall entries st m,
  In m (unpack_log st) -> In m (unpack_log (fold_left step entries st)).
Proof.
  intros Hstep. induction entries as [|kv entries IH]; intros st m Hin.
  - exact Hin.
  - cbn [fold_left]. apply IH. now apply Hstep.
Qed.

Lemma fold_log_bad (step : unpack_state W -> str * Json.json -> unpack_state W) :
  (forall st kv m, In m (unpack_log st) -> In m (unpack_log (step st kv))) ->
  (forall st kv, bad_entry kv = true ->
     In (MsgEntryFailed (fst kv)) (unpack_log (step st kv))) ->
  forall entries st kv,
  In kv entries -> bad_entry kv = true ->
  In (MsgEntryFailed (fst kv)) (unpack_log (fold_left step entries st)).
Proof.
  intros Hmono Hbad. induction entries as [|e entries IH]; intros st kv Hin Hb.
  - destruct Hin.
  - cbn [fold_left]. destruct Hin as [->|Hin].
    + apply fold_log_mono; [exact Hmono|]. now apply Hbad.
    + now apply IH.
Qed.

Lemma stream_entry_bad_log out st kv :
  bad_entry kv = true ->
  In (MsgEntryFailed (fst kv)) (unpack_log (stream_entry out st kv)).
Proof.
  unfold bad_entry, stream_entry, entry_failed. destruct kv as [key v].
  cbn [fst snd]. destruct (b64decode_value v); [discriminate|].
  intros _. cbn. apply in_or_app. right. now left.
Qed.

Lemma bulk_entry_bad_log out st kv :
  bad_entry kv = true ->
  In (MsgEntryFailed (fst kv)) (unpack_log (bulk_entry out st kv)).
Proof.
  unfold bad_entry, bulk_entry, entry_failed. destruct kv as [key v].
  cbn [fst snd]. destruct (b64decode_value v); [discriminate|].
  intros _. cbn. apply in_or_app. right. now left.
Qed.

(** What a branch does on the entries it iterates over. *)
Lemma unpack_stream_entries lp out (w : W) entries :
  entries_seen true lp w = Some entries ->
  let st := fold_left (stream_entry out) entries (unpack_init w) in
  unpack_stream lp out w =
  {| result := Returned;
     stdout := unpack_log st ++ [MsgUnpackDone (count st) out];
     final := fs st |}.
Proof.
  unfold entries_seen, unpack_stream.
  destruct (read_bytes lp w) as [data|]; [|discriminate].
  destruct (Ijson.kvitems data) as [pairs [|]]; [|discriminate].
  intros E. now inversion E.
Qed.

Lemma unpack_bulk_entries lp out (w : W) entries :
  entries_seen false lp w = Some entries ->
  let st := fold_left (bulk_entry out) entries (unpack_init w) in
  unpack_bulk lp out w =
  {| result := Returned;
     stdout := unpack_log st ++ [MsgUnpackDone (count st) out];
     final := fs st |}.
Proof.
  unfold entries_seen, unpack_bulk.
  destruct (json_load lp w) as [data|]; [|discriminate].
  intros E. now rewrite E.
Qed.

Lemma unpack_entries_effect streaming lp out (w : W) entries :
  entries_seen streaming lp w = Some entries ->
  let r := if streaming then unpack_stream lp out w else unpack_bulk lp out w in
  let wn := fold_left (entry_effect out) (filter good_entry entries) (w, O) in
  result r = Returned /\ final r = fst wn /\ reported_count r = Some (snd wn) /\
  (forall kv, In kv entries -> bad_entry kv = true ->
     In (MsgEntryFailed (fst kv)) (stdout r)).
Proof.
  intros E. destruct streaming.
  - rewrite (unpack_stream_entries lp out w entries E). cbv zeta.
    rewrite reported_count_unpack_done. cbn [result final stdout].
    pose proof (fold_stream_effect out entries (unpack_init w)) as Hf.
    rewrite fold_effect_good in Hf. unfold files_and_count in Hf.
    cbn [unpack_init fs count] in Hf. rewrite <- Hf. cbn [fst snd].
    repeat split. intros kv Hin Hb. apply in_or_app. left.
    apply (fold_log_bad (stream_entry out)); auto.
    + intros. now apply stream_entry_log_mono.
    + intros. now apply stream_entry_bad_log.
  - rewrite (unpack_bulk_entries lp out w entries E). cbv zeta.
    rewrite reported_count_unpack_done. cbn [result final stdout].
    pose proof (fold_bulk_effect out entries (unpack_init w)) as Hf.
    rewrite fold_effect_good in Hf. unfold files_and_count in Hf.
    cbn [unpack_init fs count] in Hf. rewrite <- Hf. cbn [fst snd].
    repeat split. intros kv Hin Hb. apply in_or_app. left.
    apply (fold_log_bad (bulk_entry out)); auto.
    + intros. now apply bulk_entry_log_mono.
    + intros. now apply bulk_entry_bad_log.
Qed.

Lemma unpack_unfold has lp out use_stream (w : W) :
  unpack has lp out use_stream w =
  if snd (makedirs out w) then
    if use_stream && has then unpack_stream lp out (fst (makedirs out w))
    else unpack_bulk lp out (fst (makedirs out w))
  else {| result := Raised OSError; stdout := []; final := fst (makedirs out w) |}.
Proof. unfold unpack. now destruct (makedirs out w) as [w1 [|]]. Qed.

End Unpack.

Section Claims.
Context {W : Type} `{FileSystem W}.

(** C10.  When the archive does not open, [pack] prints the failure and
    returns; the environment is the one it was called in: the output file
    was not opened, created or truncated. *)
Theorem pack_zip_failure_leaves_files zip_path lica_path (w : W) :
  zip_open zip_path w = None ->
  pack zip_path lica_path w
  = {| result := Returned; stdout := [MsgZipFailed]; final := w |}.
Proof. intros Hz. unfold pack. now rewrite Hz. Qed.

(** C8.  Without the streaming parser, a call with [use_stream = True] runs
    the bulk branch, exactly as a call without the flag does; and the two
    flags enter [unpack] only through the one test before the loops. *)
Theorem unpack_falls_back_to_bulk lica_path output_dir (w : W) :
  unpack false lica_path output_dir true w
  = unpack false lica_path output_dir false w /\
  (snd (makedirs output_dir w) = true ->
   unpack false lica_path output_dir true w
   = unpack_bulk lica_path output_dir (fst (makedirs output_dir w))) /\
  (forall HAS_IJSON use_stream,
   unpack HAS_IJSON lica_path output_dir use_stream w
   = unpack true lica_path output_dir (use_stream && HAS_IJSON) w).
Proof.
  repeat split.
  - intros Hm. rewrite unpack_unfold, Hm. reflexivity.
  - intros has us. rewrite !unpack_unfold.
    now rewrite andb_true_r.
Qed.

Lemma join_keeps_key output_dir key :
  exists prefix, PosixPath.join output_dir key = prefix ++ key.
Proof.
  unfold PosixPath.join.
  destruct (startswith [SLASH] key).
  - now exists [].
  - destruct (match output_dir with [] => true | _ :: _ => endswith output_dir [SLASH] end).
    + now exists output_dir.
    + exists (output_dir ++ [SLASH]). now rewrite <- app_assoc.
Qed.

(** C9.  An entry that decodes is written at [os.path.join(output_dir,
    key)], in both branches, whatever the key: the joined path ends with the
    key as it stands, and is the key itself when the key is absolute. *)
Theorem destination_is_unchecked_join output_dir key v content (st : unpack_state W) :
  b64decode_value v = Some content ->
  let full_path := PosixPath.join output_dir key in
  let made := makedirs (PosixPath.dirname full_path) (fs st) in
  snd made = true ->
  fs (stream_entry output_dir st (key, v)) = fst (write_bytes full_path content (fst made)) /\
  fs (bulk_entry output_dir st (key, v)) = fst (write_bytes full_path content (fst made)) /\
  (exists prefix, full_path = prefix ++ key) /\
  (startswith [SLASH] key = true -> full_path = key).
Proof.
  intros Hv full_path made Hm. subst made full_path.
  unfold stream_entry, bulk_entry, entry_failed. rewrite Hv.
  destruct (makedirs _ (fs st)) as [w1 ok1]. cbn [fst snd] in *. subst ok1.
  destruct (write_bytes _ content w1) as [w2 ok2]. cbn [fst].
  repeat split.
  - now destruct ok2.
  - now destruct ok2.
  - apply join_keeps_key.
  - intros Ha. unfold PosixPath.join. now rewrite Ha.
Qed.

Lemma entry_step_effect streaming out entries st :
  files_and_count (fold_left (entry_step streaming out) entries st)
  = fold_left (entry_effect out) entries (files_and_count st).
Proof.
  destruct streaming; [apply fold_stream_effect | apply fold_bulk_effect].
Qed.




(** C5.  An archive without a member that is not a directory is packed to
    the text [{}] and a count of 0; and for any archive the loop writes and
    counts what it would on the archive without its directories. *)
Theorem pack_without_files zip_path lica_path (w : W) zf :
  zip_open zip_path w = Some zf ->
  (file_members zf = [] ->
   final (pack zip_path lica_path w) = fst (write_text lica_path [LBRACE; RBRACE] w) /\
   (snd (write_text lica_path [LBRACE; RBRACE] w) = true ->
    result (pack zip_path lica_path w) = Returned /\
    reported_count (pack zip_path lica_path w) = Some O)) /\
  out_f (pack_loop zf) = out_f (pack_loop (file_members zf)) /\
  file_count (pack_loop zf) = List.length (file_members zf).
Proof.
  intros Hz. destruct (pack_opened zip_path lica_path w zf Hz) as (Hf & Hok & _).
  split; [|split].
  - intros Hnone. unfold container_text in Hf, Hok. rewrite Hnone in Hf, Hok.
    split; [exact Hf|]. intros Hw. destruct (Hok Hw) as [Hr Hc].
    split; [exact Hr|]. rewrite Hc. reflexivity.
  - apply pack_loop_skips_directories.
  - apply pack_loop_spec.
Qed.

(** The part of C7 that holds: a container that cannot be read or does not
    parse is reported, and no file is written. *)
Lemma unpack_bulk_not_loaded lica_path output_dir (w : W) :
  json_load lica_path w = None ->
  unpack_bulk lica_path output_dir w
  = {| result := Returned; stdout := [MsgReadFailed]; final := w |}.
Proof. intros Hl. unfold unpack_bulk. now rewrite Hl. Qed.

(** A container that parses to something else than an object gets past the
    handler; [data.items()] raises outside of it. *)
Lemma unpack_bulk_not_object lica_path output_dir (w : W) data :
  json_load lica_path w = Some data ->
  items data = None ->
  unpack_bulk lica_path output_dir w
  = {| result := Raised AttributeError; stdout := []; final := w |}.
Proof. intros Hl Hi. unfold unpack_bulk. now rewrite Hl, Hi. Qed.

End Claims.

Module DiskFacts.
Import Disk DiskInv.

Lemma str_eqb_eq a b : str_eqb a b = true <-> a = b.
Proof. unfold str_eqb. destruct (str_eq_dec a b); split; congruence. Qed.

Lemma lookup_set_same d c n : c <> [] -> lookup (set_node d c n) c = Some n.
Proof.
  intros Hc. destruct c as [|x c]; [congruence|].
  unfold lookup, set_node. cbn [nodes].
  now destruct (cpath_eq_dec (x :: c) (x :: c)).
Qed.

Lemma lookup_set_other d c n c' : c' <> c -> lookup (set_node d c n) c' = lookup d c'.
Proof.
  intros Hc. destruct c' as [|x c']; [reflexivity|].
  unfold lookup, set_node. cbn [nodes].
  now destruct (cpath_eq_dec (x :: c') c).
Qed.

Lemma is_dir_set_dir d c c' :
  is_dir_node d c' = true -> is_dir_node (set_node d c Dir) c' = true.
Proof.
  unfold is_dir_node. intros H.
  destruct (cpath_eq_dec c' c) as [->|Hne].
  - destruct c as [|x c]; [reflexivity|]. now rewrite lookup_set_same.
  - now rewrite lookup_set_other.
Qed.

Lemma is_dir_set_file d c data c' :
  is_dir_node d c = false ->
  is_dir_node d c' = true -> is_dir_node (set_node d c (File data)) c' = true.
Proof.
  intros Hc H. destruct (cpath_eq_dec c' c) as [->|Hne]; [congruence|].
  unfold is_dir_node. rewrite lookup_set_other by exact Hne. exact H.
Qed.

Lemma dirs_kept_refl d : dirs_kept d d.
Proof. now split. Qed.

Lemma dirs_kept_trans d1 d2 d3 : dirs_kept d1 d2 -> dirs_kept d2 d3 -> dirs_kept d1 d3.
Proof. intros [C1 H1] [C2 H2]. split; [congruence | auto]. Qed.

Lemma dirs_kept_set_dir d c : dirs_kept d (set_node d c Dir).
Proof. split; [reflexivity|]. intros c'. apply is_dir_set_dir. Qed.

Lemma dirs_kept_set_file d c data :
  is_dir_node d c = false -> dirs_kept d (set_node d c (File data)).
Proof. intros Hc. split; [reflexivity|]. intros c'. now apply is_dir_set_file. Qed.

(** Directories that stay keep every path that led somewhere leading
    there. *)
Lemma walk_kept d d' comps : forall cur c,
  dirs_kept d d' -> walk d cur comps = Some c -> walk d' cur comps = Some c.
Proof.
  induction comps as [|x rest IH]; intros cur c Hk Hw; [exact Hw|].
  cbn [walk] in *. destruct (is_dir_node d cur) eqn:Hd; [|discriminate].
  rewrite (proj2 Hk cur Hd).
  destruct (str_eqb x [] || str_eqb x DOT); [now apply IH|].
  destruct (str_eqb x DOTDOT); now apply IH.
Qed.

Lemma resolve_kept d d' p c :
  dirs_kept d d' -> resolve d p = Some c -> resolve d' p = Some c.
Proof.
  unfold resolve, start. intros Hk. destruct (path_ok p); [|discriminate].
  rewrite (proj1 Hk). now apply walk_kept.
Qed.

Lemma isdir_kept d d' p : dirs_kept d d' -> isdir d p = true -> isdir d' p = true.
Proof.
  unfold isdir. intros Hk. destruct (resolve d p) as [c|] eqn:Hr; [|discriminate].
  rewrite (resolve_kept d d' p c Hk Hr). apply (proj2 Hk).
Qed.

Lemma parent_snoc (c : cpath) x : parent (c ++ [x]) = c.
Proof. apply removelast_last. Qed.

Lemma snoc_not_nil (c : cpath) x : c ++ [x] <> [].
Proof. now destruct c. Qed.

Lemma wf_parent d cur : wf d -> is_dir_node d cur = true -> is_dir_node d (parent cur) = true.
Proof.
  intros [_ Hp] Hd. destruct cur as [|x cur]; [exact Hd|].
  apply Hp. unfold is_dir_node in Hd. cbn [lookup] in Hd.
  destruct (nodes d (x :: cur)); congruence.
Qed.

Lemma wf_set_dir d cur x :
  wf d -> is_dir_node d cur = true -> wf (set_node d (cur ++ [x]) Dir).
Proof.
  intros [Hc Hp] Hd. split.
  - cbn [cwd set_node]. now apply is_dir_set_dir.
  - intros c Hn. cbn [nodes set_node] in Hn.
    apply is_dir_set_dir.
    destruct (cpath_eq_dec c (cur ++ [x])) as [->|Hne].
    + now rewrite parent_snoc.
    + now apply Hp.
Qed.

Lemma wf_set_file d c data :
  wf d -> is_dir_node d c = false -> is_dir_node d (parent c) = true ->
  wf (set_node d c (File data)).
Proof.
  intros [Hc Hp] Hnd Hpar. split.
  - cbn [cwd set_node]. now apply is_dir_set_file.
  - intros c' Hn. cbn [nodes set_node] in Hn.
    apply is_dir_set_file; [exact Hnd|].
    destruct (cpath_eq_dec c' c) as [->|Hne]; [exact Hpar | now apply Hp].
Qed.

(** [os.makedirs]: when it succeeds the path leads to a directory, the tree
    is still a tree, and what was there is still there. *)
Lemma mkdir_p_spec comps : forall d cur d',
  wf d -> is_dir_node d cur = true ->
  mkdir_p d cur comps = (d', true) ->
  wf d' /\ dirs_kept d d' /\
  (forall c data, lookup d' c = Some (File data) -> lookup d c = Some (File data)) /\
  exists c, walk d' cur comps = Some c /\ is_dir_node d' c = true.
Proof.
  induction comps as [|x rest IH]; intros d cur d' Hwf Hd Hm.
  - cbn in Hm. inversion Hm; subst d'.
    split; [exact Hwf|]. split; [apply dirs_kept_refl|]. split; [auto|].
    now exists cur.
  - cbn [mkdir_p] in Hm. cbn [walk].
    destruct (str_eqb x [] || str_eqb x DOT) eqn:E1.
    { destruct (IH d cur d' Hwf Hd Hm) as (W' & K & F & c & Hw & Hc).
      split; [exact W'|]. split; [exact K|]. split; [exact F|].
      exists c. now rewrite (proj2 K cur Hd). }
    destruct (str_eqb x DOTDOT) eqn:E2.
    { pose proof (wf_parent d cur Hwf Hd) as Hpd.
      destruct (IH d (parent cur) d' Hwf Hpd Hm) as (W' & K & F & c & Hw & Hc).
      split; [exact W'|]. split; [exact K|]. split; [exact F|].
      exists c. now rewrite (proj2 K cur Hd). }
    destruct (lookup d (cur ++ [x])) as [[data|]|] eqn:El.
    + discriminate.
    + assert (Hdx : is_dir_node d (cur ++ [x]) = true)
        by (unfold is_dir_node; now rewrite El).
      destruct (IH d (cur ++ [x]) d' Hwf Hdx Hm) as (W' & K & F & c & Hw & Hc).
      split; [exact W'|]. split; [exact K|]. split; [exact F|].
      exists c. now rewrite (proj2 K cur Hd).
    + pose proof (wf_set_dir d cur x Hwf Hd) as Hwf1.
      assert (Hdx : is_dir_node (set_node d (cur ++ [x]) Dir) (cur ++ [x]) = true).
      { unfold is_dir_node. rewrite lookup_set_same by apply snoc_not_nil. reflexivity. }
      destruct (IH _ (cur ++ [x]) d' Hwf1 Hdx Hm) as (W' & K & F & c & Hw & Hc).
      pose proof (dirs_kept_trans _ _ _ (dirs_kept_set_dir d (cur ++ [x])) K) as K'.
      split; [exact W'|]. split; [exact K'|]. split.
      * intros c0 data0 H0. specialize (F c0 data0 H0).
        destruct (cpath_eq_dec c0 (cur ++ [x])) as [->|Hne].
        -- rewrite lookup_set_same in F by apply snoc_not_nil. discriminate.
        -- now rewrite lookup_set_other in F.
      * exists c. now rewrite (proj2 K' cur Hd).
Qed.

Lemma wf_start d p : wf d -> is_dir_node d (start d p) = true.
Proof. intros [Hc _]. unfold start. now destruct (startswith [SLASH] p). Qed.

Lemma disk_makedirs_spec p d d' :
  wf d -> disk_makedirs p d = (d', true) ->
  wf d' /\ dirs_kept d d' /\
  (forall c data, lookup d' c = Some (File data) -> lookup d c = Some (File data)) /\
  isdir d' p = true.
Proof.
  unfold disk_makedirs, isdir, resolve. intros Hwf Hm.
  destruct (path_ok p); [|discriminate].
  destruct (mkdir_p_spec _ _ _ _ Hwf (wf_start d p Hwf) Hm) as (W' & K & F & c & Hw & Hc).
  split; [exact W'|]. split; [exact K|]. split; [exact F|].
  replace (start d' p) with (start d p) by (unfold start; now rewrite (proj1 K)).
  now rewrite Hw.
Qed.

(** The parent of the node a path leads to is a directory. *)
Lemma walk_parent d comps : forall cur c,
  wf d -> is_dir_node d cur = true -> walk d cur comps = Some c ->
  is_dir_node d c = true \/ is_dir_node d (parent c) = true.
Proof.
  induction comps as [|x rest IH]; intros cur c Hwf Hd Hw.
  - cbn in Hw. inversion Hw; subst. now left.
  - cbn [walk] in Hw. rewrite Hd in Hw.
    destruct (str_eqb x [] || str_eqb x DOT); [now apply (IH cur)|].
    destruct (str_eqb x DOTDOT).
    + apply (IH (parent cur)); auto. now apply wf_parent.
    + destruct (is_dir_node d (cur ++ [x])) eqn:Hdx.
      * now apply (IH (cur ++ [x])).
      * destruct rest as [|y rest'].
        -- cbn in Hw. inversion Hw; subst. right. now rewrite parent_snoc.
        -- cbn [walk] in Hw. rewrite Hdx in Hw. discriminate.
Qed.

Lemma disk_write_bytes_spec p data d d' :
  wf d -> disk_write_bytes p data d = (d', true) ->
  wf d' /\ dirs_kept d d' /\ file_at d' p = Some data.
Proof.
  unfold disk_write_bytes, file_at. intros Hwf Hw.
  destruct (resolve d p) as [c|] eqn:Hr; [|discriminate].
  assert (Hnd : is_dir_node d c = false).
  { unfold is_dir_node. destruct (lookup d c) as [[?|]|]; try reflexivity. discriminate. }
  assert (Hd' : d' = set_node d c (File data)).
  { destruct (lookup d c) as [[?|]|]; now inversion Hw. }
  subst d'. clear Hw.
  assert (Hc : c <> []) by (intros ->; discriminate).
  pose proof (dirs_kept_set_file d c data Hnd) as K.
  split; [split|split; [exact K|]].
  - cbn [cwd set_node]. apply is_dir_set_file; [exact Hnd | apply Hwf].
  - intros c' Hn. cbn [nodes set_node] in Hn.
    apply is_dir_set_file; [exact Hnd|].
    destruct (cpath_eq_dec c' c) as [->|Hne]; [|now apply (proj2 Hwf)].
    unfold resolve in Hr. destruct (path_ok p); [|discriminate].
    destruct (walk_parent d _ _ c Hwf (wf_start d p Hwf) Hr); congruence.
  - rewrite (resolve_kept _ _ p c K Hr). now rewrite lookup_set_same.
Qed.

End DiskFacts.

Module DiskClaims.
Import Disk DiskInv DiskFacts.

Lemma entry_step_files_and_count streaming out (st : unpack_state disk) kv :
  files_and_count (entry_step streaming out st kv)
  = entry_effect out (files_and_count st) kv.
Proof.
  destruct streaming; [apply stream_entry_effect | apply bulk_entry_effect].
Qed.

(** C6.  An entry that is written (it is counted) was written after
    [os.makedirs] on the directory part of [os.path.join(output_dir, key)]:
    in the tree it leaves, that directory part leads to a directory (every
    directory on the way exists) and the joined path leads to a file with
    the decoded bytes. *)
Theorem entry_makes_directories streaming output_dir key v content
  (st : unpack_state disk) :
  wf (fs st) ->
  b64decode_value v = Some content ->
  let st' := entry_step streaming output_dir st (key, v) in
  count st' = S (count st) ->
  let full_path := PosixPath.join output_dir key in
  fs st' = fst (write_bytes full_path content
                  (fst (makedirs (PosixPath.dirname full_path) (fs st)))) /\
  isdir (fs st') (PosixPath.dirname full_path) = true /\
  file_at (fs st') full_path = Some content /\
  wf (fs st').
Proof.
  intros Hwf Hv st' Hcount full_path.
  pose proof (entry_step_files_and_count streaming output_dir st (key, v)) as He.
  fold st' in He. unfold files_and_count, entry_effect in He.
  cbn [fst snd] in He. rewrite Hv in He. fold full_path in He.
  cbn [makedirs write_bytes disk_fs] in *.
  destruct (disk_makedirs (PosixPath.dirname full_path) (fs st)) as [d1 ok1] eqn:Em.
  cbn [fst snd] in He |- *.
  destruct ok1; [|inversion He; lia].
  destruct (disk_write_bytes full_path content d1) as [d2 ok2] eqn:Ew.
  cbn [fst snd] in He |- *.
  destruct ok2; [|inversion He; lia].
  assert (Hfs : fs st' = d2) by congruence. clear He.
  destruct (disk_makedirs_spec _ _ _ Hwf Em) as (W1 & K1 & _ & D1).
  destruct (disk_write_bytes_spec _ _ _ _ W1 Ew) as (W2 & K2 & F2).
  rewrite Hfs.
  split; [reflexivity|]. split; [|split; assumption].
  now apply (isdir_kept d1 d2).
Qed.

(** C7, at a container that holds a JSON array: the bulk branch gets past
    its handler and [data.items()] raises; nothing is printed, and the tree
    is the one [os.makedirs(output_dir)] left. *)
Theorem unpack_bulk_array_container :
  let d := fst (write_text (u "c.lica") [LBRACKET; RBRACKET] (with_archive [] [])) in
  let r := unpack true (u "c.lica") (u "out") false d in
  json_load (u "c.lica") (fst (makedirs (u "out") d)) = Some (Json.JArr []) /\
  result r = Raised AttributeError /\
  stdout r = [] /\
  final r = fst (makedirs (u "out") d).
Proof. vm_compute. repeat split. Qed.

End DiskClaims.

Module NameFacts.
Import Disk Names.

Lemma split_sep_not_nil p : split_sep p <> [].
Proof.
  destruct p as [|c r]; cbn; [discriminate|].
  destruct (c =? SLASH); [discriminate|].
  destruct (split_sep r); discriminate.
Qed.

Lemma unsplit_cons x l : l <> [] -> unsplit (x :: l) = x ++ SLASH :: unsplit l.
Proof. destruct l; [congruence | reflexivity]. Qed.

Lemma unsplit_split_sep p : unsplit (split_sep p) = p.
Proof.
  induction p as [|c r IH]; [reflexivity|].
  cbn [split_sep]. destruct (N.eqb_spec c SLASH) as [->|Hc].
  - rewrite unsplit_cons by apply split_sep_not_nil. now rewrite IH.
  - destruct (split_sep r) as [|h t] eqn:E; [now apply split_sep_not_nil in E|].
    rewrite <- IH. destruct t; reflexivity.
Qed.

Lemma split_sep_noslash x : noslash x -> split_sep x = [x].
Proof.
  unfold noslash. induction x as [|c r IH]; [reflexivity|].
  cbn [forallb split_sep]. intros H. apply andb_true_iff in H as [Hc Hr].
  apply negb_true_iff in Hc. rewrite Hc, (IH Hr). reflexivity.
Qed.

Lemma split_sep_app x b : noslash x -> split_sep (x ++ SLASH :: b) = x :: split_sep b.
Proof.
  unfold noslash. induction x as [|c r IH]; intros H.
  - cbn. reflexivity.
  - cbn [forallb] in H. apply andb_true_iff in H as [Hc Hr].
    apply negb_true_iff in Hc. cbn [app split_sep]. rewrite Hc, (IH Hr). reflexivity.
Qed.

Lemma split_sep_unsplit l : l <> [] -> Forall noslash l -> split_sep (unsplit l) = l.
Proof.
  induction l as [|x l IH]; [congruence|]. intros _ Hl.
  inversion Hl as [|? ? Hx Hl']; subst.
  destruct l as [|y l'].
  - cbn. now apply split_sep_noslash.
  - rewrite unsplit_cons by discriminate.
    rewrite split_sep_app by exact Hx. now rewrite IH.
Qed.

Lemma unsplit_snoc l c : l <> [] -> unsplit (l ++ [c]) = unsplit l ++ SLASH :: c.
Proof.
  induction l as [|x l IH]; [congruence|]. intros _.
  destruct l as [|y l'].
  - reflexivity.
  - change ((x :: y :: l') ++ [c]) with (x :: ((y :: l') ++ [c])).
    rewrite unsplit_cons by (cbn; discriminate).
    rewrite IH by discriminate.
    rewrite (unsplit_cons x (y :: l')) by discriminate. now rewrite <- app_assoc.
Qed.

Lemma startswith_slash_cons c r : c <> SLASH -> startswith [SLASH] (c :: r) = false.
Proof.
  intros Hc. unfold startswith. cbn [List.length firstn].
  apply not_true_iff_false. rewrite DiskFacts.str_eqb_eq. congruence.
Qed.

Lemma startswith_slash_nil : startswith [SLASH] [] = false.
Proof. reflexivity. Qed.

Lemma dir_prefix_noslash c : noslash c -> PosixPath.dir_prefix c = [].
Proof.
  unfold noslash. destruct c as [|x r]; [reflexivity|]. intros H.
  cbn [PosixPath.dir_prefix].
  replace (existsb PosixPath.is_sep (x :: r)) with false; [reflexivity|].
  symmetry. apply not_true_iff_false. intros E.
  apply existsb_exists in E as (y & Hy & Hs).
  rewrite forallb_forall in H. specialize (H y Hy).
  unfold PosixPath.is_sep in Hs. rewrite Hs in H. discriminate.
Qed.

Lemma dir_prefix_app a c : noslash c ->
  PosixPath.dir_prefix (a ++ SLASH :: c) = a ++ [SLASH].
Proof.
  intros Hc. induction a as [|x a IH].
  - cbn [app PosixPath.dir_prefix existsb].
    replace (PosixPath.is_sep SLASH) with true by reflexivity.
    cbn [orb]. now rewrite dir_prefix_noslash.
  - cbn [app PosixPath.dir_prefix].
    replace (existsb PosixPath.is_sep (x :: a ++ SLASH :: c)) with true.
    + now rewrite IH.
    + symmetry. apply existsb_exists. exists SLASH. split.
      * right. apply in_or_app. right. now left.
      * apply N.eqb_refl.
Qed.

(** The directory part of [a/c]. *)
Lemma dirname_app a0 ch c : ch <> SLASH -> noslash c ->
  PosixPath.dirname ((a0 ++ [ch]) ++ SLASH :: c) = a0 ++ [ch].
Proof.
  intros Hch Hc.
  assert (Hne : PosixPath.is_sep ch = false) by now apply N.eqb_neq.
  assert (Hf : forallb PosixPath.is_sep ((a0 ++ [ch]) ++ [SLASH]) = false).
  { rewrite !forallb_app. cbn [forallb]. rewrite Hne.
    now rewrite andb_false_r. }
  assert (Hr : PosixPath.rstrip_sep ((a0 ++ [ch]) ++ [SLASH]) = a0 ++ [ch]).
  { unfold PosixPath.rstrip_sep. rewrite !rev_app_distr.
    cbn [rev app PosixPath.lstrip_sep].
    replace (PosixPath.is_sep SLASH) with true by reflexivity.
    rewrite Hne. cbn [rev]. now rewrite rev_involutive. }
  unfold PosixPath.dirname. rewrite dir_prefix_app by exact Hc.
  destruct ((a0 ++ [ch]) ++ [SLASH]) as [|y r] eqn:E.
  { now destruct a0. }
  now rewrite Hf.
Qed.

End NameFacts.

Module PlainPaths.
Import Disk Names NameFacts DiskFacts.

Lemma forallb_and {A} (f g : A -> bool) l :
  forallb (fun x => f x && g x) l = true ->
  forallb f l = true /\ forallb g l = true.
Proof.
  induction l as [|x l IH]; cbn [forallb]; [now split|].
  intros H. apply andb_true_iff in H as [Hx Hl].
  apply andb_true_iff in Hx as [Hf Hg]. destruct (IH Hl) as [H1 H2].
  now rewrite Hf, Hg, H1, H2.
Qed.

Lemma plain_comp_spec x : plain_comp x = true ->
  x <> [] /\ (str_eqb x [] || str_eqb x DOT) = false /\ str_eqb x DOTDOT = false /\
  noslash x /\ nonul x.
Proof.
  unfold plain_comp. intros H.
  apply andb_true_iff in H as [H Hc]. apply andb_true_iff in H as [H H3].
  apply andb_true_iff in H as [H1 H2].
  apply negb_true_iff in H1, H2, H3.
  apply forallb_and in Hc as [Hn Hs].
  repeat split; auto.
  - intros ->. discriminate.
  - now rewrite H1, H2.
Qed.

Lemma plain_all_noslash l : forallb plain_comp l = true -> Forall noslash l.
Proof.
  rewrite forallb_forall. intros H. apply Forall_forall. intros x Hx.
  now apply plain_comp_spec, H.
Qed.

Lemma noslash_startswith s : noslash s -> startswith [SLASH] s = false.
Proof.
  unfold noslash. destruct s as [|c r]; [reflexivity|].
  cbn [forallb]. intros H. apply andb_true_iff in H as [Hc _].
  apply startswith_slash_cons. apply negb_true_iff in Hc. now apply N.eqb_neq.
Qed.

Lemma noslash_rev s : noslash s -> noslash (rev s).
Proof.
  unfold noslash. rewrite !forallb_forall. intros H x Hx.
  apply H. now apply in_rev.
Qed.

Lemma startswith_unsplit l :
  forallb plain_comp l = true -> startswith [SLASH] (unsplit l) = false.
Proof.
  destruct l as [|x l']; [reflexivity|]. cbn [forallb]. intros H.
  apply andb_true_iff in H as [Hx _].
  destruct (plain_comp_spec x Hx) as (Hne & _ & _ & Hs & _).
  destruct x as [|x0 x']; [congruence|].
  unfold noslash in Hs. cbn [forallb] in Hs. apply andb_true_iff in Hs as [H0 _].
  apply negb_true_iff, N.eqb_neq in H0.
  destruct l'; cbn [unsplit app]; now apply startswith_slash_cons.
Qed.

Lemma nonul_unsplit l : forallb plain_comp l = true -> nonul (unsplit l).
Proof.
  unfold nonul. induction l as [|x l IH]; [reflexivity|].
  cbn [forallb]. intros H. apply andb_true_iff in H as [Hx Hl].
  destruct (plain_comp_spec x Hx) as (_ & _ & _ & _ & Hn).
  destruct l as [|y l']; [exact Hn|].
  rewrite unsplit_cons by discriminate.
  rewrite forallb_app. cbn [forallb]. rewrite Hn, (IH Hl). reflexivity.
Qed.

Lemma unsplit_last l : l <> [] -> forallb plain_comp l = true ->
  exists a0 ch, unsplit l = a0 ++ [ch] /\ ch <> SLASH.
Proof.
  induction l as [|x l IH]; [congruence|]. intros _ H.
  cbn [forallb] in H. apply andb_true_iff in H as [Hx Hl].
  destruct l as [|y l'].
  - destruct (plain_comp_spec x Hx) as (Hne & _ & _ & Hs & _).
    destruct (exists_last Hne) as (a0 & ch & ->).
    exists a0, ch. split; [reflexivity|].
    unfold noslash in Hs. rewrite forallb_forall in Hs.
    assert (Hin : In ch (a0 ++ [ch])) by (apply in_or_app; right; now left).
    specialize (Hs ch Hin).
    now apply negb_true_iff, N.eqb_neq in Hs.
  - destruct (IH ltac:(discriminate) Hl) as (a0 & ch & E & Hch).
    exists (x ++ SLASH :: a0), ch. split; [|exact Hch].
    rewrite unsplit_cons by discriminate. rewrite E.
    now rewrite <- app_assoc.
Qed.

Lemma path_ok_unsplit l : l <> [] -> forallb plain_comp l = true ->
  path_ok (unsplit l) = true.
Proof.
  intros Hne H. destruct (unsplit_last l Hne H) as (a0 & ch & E & _).
  pose proof (nonul_unsplit l H) as Hn. unfold nonul in Hn.
  unfold path_ok. destruct (unsplit l); [now destruct a0 | exact Hn].
Qed.

(** os.path.join of a plain directory name and a relative path of plain
    components. *)
Lemma join_plain out name :
  plain_comp out = true -> forallb plain_comp (split_sep name) = true ->
  PosixPath.join out name = unsplit (out :: split_sep name).
Proof.
  intros Ho Hn. rewrite unsplit_cons by apply split_sep_not_nil.
  rewrite unsplit_split_sep. unfold PosixPath.join.
  pose proof (startswith_unsplit _ Hn) as Hs. rewrite unsplit_split_sep in Hs.
  rewrite Hs.
  destruct (plain_comp_spec out Ho) as (Hne & _ & _ & Hsl & _).
  destruct out as [|o0 o']; [congruence|].
  unfold endswith. change (rev [SLASH]) with [SLASH].
  now rewrite (noslash_startswith _ (noslash_rev _ Hsl)).
Qed.

Lemma forallb_snoc {A} (f : A -> bool) l x :
  forallb f (l ++ [x]) = true -> forallb f l = true /\ f x = true.
Proof.
  rewrite forallb_app. cbn [forallb]. rewrite andb_true_r.
  apply andb_true_iff.
Qed.

Section Destination.
Variables (out name : str) (cs : list str) (c : str).
Hypothesis Hout : plain_comp out = true.
Hypothesis Hname : forallb plain_comp (split_sep name) = true.
Hypothesis Hsplit : split_sep name = cs ++ [c].

Let full_path := PosixPath.join out name.

Lemma plain_dirs : forallb plain_comp (out :: cs) = true.
Proof.
  rewrite Hsplit in Hname. apply forallb_snoc in Hname as [H1 _].
  cbn [forallb]. now rewrite Hout, H1.
Qed.

Lemma plain_all : forallb plain_comp ((out :: cs) ++ [c]) = true.
Proof. cbn [app forallb]. rewrite Hout. now rewrite <- Hsplit. Qed.

Lemma full_path_unsplit : full_path = unsplit ((out :: cs) ++ [c]).
Proof.
  unfold full_path. rewrite join_plain by assumption. now rewrite Hsplit.
Qed.

Lemma dirname_full_path : PosixPath.dirname full_path = unsplit (out :: cs).
Proof.
  rewrite full_path_unsplit. rewrite unsplit_snoc by discriminate.
  destruct (unsplit_last (out :: cs) ltac:(discriminate) plain_dirs)
    as (a0 & ch & E & Hch).
  rewrite E. apply dirname_app; [exact Hch|].
  rewrite Hsplit in Hname. apply forallb_snoc in Hname as [_ Hc].
  now apply plain_comp_spec.
Qed.

Lemma makedirs_plain d :
  disk_makedirs (PosixPath.dirname full_path) d = mkdir_p d (cwd d) (out :: cs).
Proof.
  rewrite dirname_full_path. unfold disk_makedirs, start.
  rewrite path_ok_unsplit by (try discriminate; apply plain_dirs).
  rewrite (startswith_unsplit _ plain_dirs).
  rewrite split_sep_unsplit; [reflexivity | discriminate |].
  apply plain_all_noslash, plain_dirs.
Qed.

Lemma resolve_plain d :
  resolve d full_path = walk d (cwd d) ((out :: cs) ++ [c]).
Proof.
  rewrite full_path_unsplit. unfold resolve, start.
  rewrite path_ok_unsplit by (try discriminate; apply plain_all).
  rewrite (startswith_unsplit _ plain_all).
  rewrite split_sep_unsplit; [reflexivity | discriminate |].
  apply plain_all_noslash, plain_all.
Qed.

End Destination.

End PlainPaths.

Module TreeFacts.
Import Disk Names NameFacts DiskFacts PlainPaths TreeInv.

Lemma chain_nil cur c : ~ chain cur [] c.
Proof.
  intros (pre & suf & E & Hne & _). symmetry in E.
  apply app_eq_nil in E as [-> _]. congruence.
Qed.

Lemma chain_cons cur x rest c :
  chain cur (x :: rest) c <-> c = cur ++ [x] \/ chain (cur ++ [x]) rest c.
Proof.
  split.
  - intros (pre & suf & E & Hne & ->).
    destruct pre as [|y pre']; [congruence|].
    cbn [app] in E. inversion E; subst.
    destruct pre' as [|z pre''].
    + now left.
    + right. exists (z :: pre''), suf. repeat split; try discriminate.
      now rewrite <- app_assoc.
  - intros [-> | (pre & suf & -> & Hne & ->)].
    + exists [x], rest. repeat split. discriminate.
    + exists (x :: pre), suf. repeat split; try discriminate.
      now rewrite <- app_assoc.
Qed.

Lemma chain_not_self cur cs c : chain cur cs c -> c <> cur.
Proof.
  intros (pre & suf & _ & Hne & ->) E.
  rewrite <- (app_nil_r cur) in E at 2. apply app_inv_head in E. congruence.
Qed.

Lemma chain_longer cur cs c : chain cur cs c ->
  (List.length cur < List.length c <= List.length cur + List.length cs)%nat.
Proof.
  intros (pre & suf & -> & Hne & ->). rewrite !length_app.
  destruct pre; [congruence|]. cbn [List.length]. lia.
Qed.

(** [os.makedirs] over plain components with no file in the way: every
    node on the way becomes (or is) a directory, and nothing else changes. *)
Lemma mkdir_p_plain cs : forall d cur,
  forallb plain_comp cs = true ->
  (forall c data, chain cur cs c -> lookup d c <> Some (File data)) ->
  exists d', mkdir_p d cur cs = (d', true) /\ cwd d' = cwd d /\
    archives d' = archives d /\
    (forall c, chain cur cs c -> lookup d' c = Some Dir) /\
    (forall c, lookup d' c = lookup d c \/ (chain cur cs c /\ lookup d' c = Some Dir)).
Proof.
  induction cs as [|x rest IH]; intros d cur Hp Hfree.
  - exists d. repeat split; auto. intros c Hc. now apply chain_nil in Hc.
  - cbn [forallb] in Hp. apply andb_true_iff in Hp as [Hx Hrest].
    destruct (plain_comp_spec x Hx) as (_ & E1 & E2 & _ & _).
    cbn [mkdir_p]. rewrite E1, E2.
    assert (Hself : chain cur (x :: rest) (cur ++ [x])) by (apply chain_cons; now left).
    destruct (lookup d (cur ++ [x])) as [[data|]|] eqn:El.
    + now apply Hfree in El.
    + destruct (IH d (cur ++ [x]) Hrest) as (d' & Hm & Hc & Ha & Q & P).
      { intros c data Hch. apply Hfree. apply chain_cons. now right. }
      exists d'. split; [exact Hm|]. split; [exact Hc|]. split; [exact Ha|]. split.
      * intros c Hch. apply chain_cons in Hch as [->|Hch]; [|now apply Q].
        destruct (P (cur ++ [x])) as [E|[_ E]]; congruence.
      * intros c. destruct (P c) as [E|[Hch E]]; [now left|].
        right. split; [|exact E]. apply chain_cons. now right.
    + destruct (IH (set_node d (cur ++ [x]) Dir) (cur ++ [x]) Hrest)
        as (d' & Hm & Hc & Ha & Q & P).
      { intros c data Hch.
        rewrite lookup_set_other by (eapply chain_not_self; exact Hch).
        apply Hfree. apply chain_cons. now right. }
      exists d'. split; [exact Hm|]. split; [exact Hc|]. split; [exact Ha|]. split.
      * intros c Hch. apply chain_cons in Hch as [->|Hch]; [|now apply Q].
        destruct (P (cur ++ [x])) as [E|[_ E]]; [|exact E].
        rewrite E. apply lookup_set_same, snoc_not_nil.
      * intros c. destruct (P c) as [E|[Hch E]].
        -- destruct (cpath_eq_dec c (cur ++ [x])) as [->|Hne].
           ++ right. split; [exact Hself|]. rewrite E.
              apply lookup_set_same, snoc_not_nil.
           ++ left. rewrite E. now apply lookup_set_other.
        -- right. split; [|exact E]. apply chain_cons. now right.
Qed.

(** A path of plain components leads to the node of that name when the
    directories on the way exist. *)
Lemma walk_plain l : forall d cur c,
  forallb plain_comp l = true -> plain_comp c = true ->
  is_dir_node d cur = true ->
  (forall c', chain cur l c' -> lookup d c' = Some Dir) ->
  walk d cur (l ++ [c]) = Some (cur ++ l ++ [c]).
Proof.
  induction l as [|x l IH]; intros d cur c Hl Hc Hd Hch.
  - destruct (plain_comp_spec c Hc) as (_ & E1 & E2 & _ & _).
    cbn [app walk]. now rewrite Hd, E1, E2.
  - cbn [forallb] in Hl. apply andb_true_iff in Hl as [Hx Hl].
    destruct (plain_comp_spec x Hx) as (_ & E1 & E2 & _ & _).
    cbn [app walk]. rewrite Hd, E1, E2.
    rewrite IH; auto.
    + now rewrite <- app_assoc.
    + unfold is_dir_node. rewrite Hch; [reflexivity|]. apply chain_cons. now left.
    + intros c' H'. apply Hch. apply chain_cons. now right.
Qed.

Lemma is_prefix_app a rest : is_prefix a (a ++ rest) = true.
Proof.
  induction a as [|x a IH]; [reflexivity|].
  cbn [app is_prefix]. rewrite IH, andb_true_r. now apply str_eqb_eq.
Qed.

Lemma no_clash_prefix a rest b : b = a ++ rest -> clash a b = false -> False.
Proof.
  intros -> H. unfold clash in H. rewrite is_prefix_app in H. discriminate.
Qed.

Lemma no_clash_prefix' a rest b : a = b ++ rest -> clash a b = false -> False.
Proof.
  intros -> H. unfold clash in H. rewrite is_prefix_app in H.
  rewrite orb_true_r in H. discriminate.
Qed.

End TreeFacts.

Module StepFacts.
Import Disk Names NameFacts DiskFacts PlainPaths TreeInv TreeFacts.

Lemma chain_out cw out cs c :
  chain cw (out :: cs) c <-> exists pre suf, cs = pre ++ suf /\ c = cw ++ out :: pre.
Proof.
  split.
  - intros (pre & suf & E & Hne & ->). destruct pre as [|y pre']; [congruence|].
    cbn [app] in E. inversion E; subst. now exists pre', suf.
  - intros (pre & suf & -> & ->). exists (out :: pre), suf.
    repeat split. discriminate.
Qed.

Lemma below_inj (cw : cpath) out a b : cw ++ out :: a = cw ++ out :: b -> a = b.
Proof. intros E. apply app_inv_head in E. now inversion E. Qed.

Lemma snoc_split {A} (l : list A) c pre suf :
  l ++ [c] = pre ++ suf -> suf <> [] -> exists suf', l = pre ++ suf' /\ suf = suf' ++ [c].
Proof.
  intros E Hne. destruct (exists_last Hne) as (suf' & c' & ->).
  rewrite app_assoc in E. apply app_inj_tail in E as [E ->]. now exists suf'.
Qed.

Section Step.
Variables (cw : cpath) (out : str) (done : list member) (d : disk) (m : member).
Hypothesis Hout : plain_comp out = true.
Hypothesis Hinv : inv cw out done d.
Hypothesis Hplain : forallb plain_comp (comps m) = true.
Hypothesis Hclash : forall m', In m' done -> clash (comps m') (comps m) = false.

Let full_path := PosixPath.join out (filename m).
Let target : cpath := cw ++ out :: comps m.

Lemma step_plain :
  exists d1 d2,
    disk_makedirs (PosixPath.dirname full_path) d = (d1, true) /\
    disk_write_bytes full_path (payload m) d1 = (d2, true) /\
    inv cw out (done ++ [m]) d2.
Proof.
  destruct (exists_last (split_sep_not_nil (filename m))) as (cs & c & Hs).
  assert (Hcm : comps m = cs ++ [c]) by exact Hs.
  pose proof (plain_dirs out (filename m) cs c Hout Hplain Hs) as Hpd.
  assert (Hpc : plain_comp c = true).
  { rewrite Hcm in Hplain. now apply forallb_snoc in Hplain. }
  destruct Hinv as [Icwd Icw Ibase Ifiles Idirs Idone].
  unfold full_path.
  rewrite (makedirs_plain out (filename m) cs c Hout Hplain Hs), Icwd.
  destruct (mkdir_p_plain (out :: cs) d cw Hpd) as (d1 & Hm & Hc1 & Ha1 & Q & P).
  { intros c0 data Hch El. apply chain_out in Hch as (pre & suf & Ecs & ->).
    destruct pre as [|p0 pre'].
    - rewrite Ibase in El. discriminate.
    - destruct (Ifiles _ _ El) as (m' & Hin & Esuf & _).
      apply (no_clash_prefix (comps m') (suf ++ [c]) (comps m)); [|now apply Hclash].
      rewrite Hcm, Ecs, <- Esuf. now rewrite <- app_assoc. }
  exists d1.
  assert (Htarget : cw ++ (out :: cs) ++ [c] = target).
  { unfold target. now rewrite Hcm. }
  assert (Hkeep : forall c0, lookup d c0 = Some Dir -> lookup d1 c0 = Some Dir).
  { intros c0 H0. destruct (P c0) as [E|[_ E]]; congruence. }
  assert (Hcw1 : is_dir_node d1 cw = true).
  { unfold is_dir_node in *. destruct (P cw) as [E|[_ E]]; now rewrite E. }
  assert (Hnochain : ~ chain cw (out :: cs) target).
  { intros Hch. apply chain_longer in Hch. unfold target in Hch.
    rewrite Hcm, !length_app in Hch. cbn [List.length] in Hch.
    rewrite length_app in Hch. cbn [List.length] in Hch. lia. }
  assert (Ht1 : lookup d1 target = lookup d target).
  { destruct (P target) as [E|[Hch _]]; [exact E | contradiction]. }
  assert (Hnd : lookup d1 target <> Some Dir).
  { rewrite Ht1. intros El.
    destruct (Idirs (comps m)) as (m' & rest & Hin & _ & E); [|exact El|].
    - rewrite Hcm. now destruct cs.
    - apply (no_clash_prefix' (comps m') rest (comps m) E). now apply Hclash. }
  assert (Htne : target <> []) by (unfold target; now destruct cw).
  exists (set_node d1 target (File (payload m))).
  split; [exact Hm|]. split.
  { unfold disk_write_bytes.
    rewrite (resolve_plain out (filename m) cs c Hout Hplain Hs), Hc1, Icwd.
    rewrite (walk_plain (out :: cs) d1 cw c Hpd Hpc Hcw1 Q), Htarget.
    destruct (lookup d1 target) as [[?|]|]; try reflexivity. congruence. }
  assert (Hother : forall a, a <> comps m ->
            lookup (set_node d1 target (File (payload m))) (cw ++ out :: a)
            = lookup d1 (cw ++ out :: a)).
  { intros a Ha. apply lookup_set_other. unfold target. intros E.
    apply below_inj in E. contradiction. }
  constructor.
  - cbn [cwd set_node]. congruence.
  - unfold is_dir_node. rewrite lookup_set_other; [exact Hcw1|].
    unfold target. intros E. rewrite <- (app_nil_r cw) in E at 1.
    apply app_inv_head in E. discriminate.
  - change (cw ++ [out]) with (cw ++ out :: []).
    rewrite Hother; [now apply Hkeep|]. rewrite Hcm. now destruct cs.
  - intros suf data El.
    destruct (cpath_eq_dec suf (comps m)) as [->|Hne].
    + fold target in El. rewrite lookup_set_same in El by exact Htne.
      inversion El; subst. exists m. repeat split. apply in_or_app. right. now left.
    + rewrite Hother in El by exact Hne.
      destruct (P (cw ++ out :: suf)) as [E|[_ E]]; [|congruence].
      rewrite E in El. destruct (Ifiles _ _ El) as (m' & Hin & H1 & H2).
      exists m'. repeat split; auto. apply in_or_app. now left.
  - intros suf Hsuf El.
    destruct (cpath_eq_dec suf (comps m)) as [->|Hne].
    + fold target in El. rewrite lookup_set_same in El by exact Htne. discriminate.
    + rewrite Hother in El by exact Hne.
      destruct (P (cw ++ out :: suf)) as [E|[Hch _]].
      * rewrite E in El. destruct (Idirs _ Hsuf El) as (m' & rest & Hin & H1 & H2).
        exists m', rest. repeat split; auto. apply in_or_app. now left.
      * apply chain_out in Hch as (pre & suf' & Ecs & E). apply below_inj in E.
        subst suf. exists m, (suf' ++ [c]). repeat split.
        -- apply in_or_app. right. now left.
        -- now destruct suf'.
        -- rewrite Hcm, Ecs. now rewrite <- app_assoc.
  - intros m0 Hin. apply in_app_or in Hin as [Hin|[<-|[]]].
    + destruct (Idone m0 Hin) as [Hf Hd].
      assert (Hne : comps m0 <> comps m).
      { intros E. apply (no_clash_prefix (comps m0) [] (comps m)); [|now apply Hclash].
        now rewrite app_nil_r. }
      split.
      * rewrite Hother by exact Hne.
        destruct (P (cw ++ out :: comps m0)) as [E|[Hch _]]; [congruence|].
        apply chain_out in Hch as (pre & suf' & Ecs & E). apply below_inj in E.
        exfalso. apply (no_clash_prefix (comps m0) (suf' ++ [c]) (comps m));
          [|now apply Hclash].
        rewrite Hcm, Ecs, E. now rewrite <- app_assoc.
      * intros pre suf E Hsuf. rewrite Hother; [apply Hkeep; eapply Hd; eauto|].
        intros ->. apply (no_clash_prefix' (comps m0) suf (comps m) E).
        now apply Hclash.
    + split.
      * fold target. now apply lookup_set_same.
      * intros pre suf E Hsuf. rewrite Hcm in E.
        destruct (snoc_split _ _ _ _ E Hsuf) as (suf' & Ecs & ->).
        rewrite Hother.
        -- apply Q. apply chain_out. now exists pre, suf'.
        -- rewrite Hcm, Ecs. intros E'.
           rewrite <- (app_nil_r pre) in E' at 1. rewrite <- app_assoc in E'.
           apply app_inv_head in E'. now destruct suf'.
Qed.

End Step.

End StepFacts.

Module AsciiFacts.
Import Utf8Facts.

Lemma ascii_app a b : ascii_text a -> ascii_text b -> ascii_text (a ++ b).
Proof. unfold ascii_text. intros. now apply Forall_app. Qed.

Lemma hexdigit_ascii x : Json.hexdigit (N.land x 15) < 128.
Proof.
  change 15 with (N.ones 4). rewrite N.land_ones.
  assert (H : x mod 2 ^ 4 < 16) by (apply N.mod_lt; discriminate).
  unfold Json.hexdigit. destruct (N.ltb_spec (x mod 2 ^ 4) 10); lia.
Qed.

Lemma hex4_ascii n : ascii_text (Json.hex4 n).
Proof. unfold Json.hex4. repeat constructor; apply hexdigit_ascii. Qed.

Lemma escape_char_ascii c : ascii_text (Json.escape_char c).
Proof.
  unfold Json.escape_char.
  repeat match goal with
  | |- ascii_text (if ?b then _ else _) => destruct b eqn:?
  end; cbv zeta;
  repeat first [ apply ascii_app | apply hex4_ascii | constructor ];
  try reflexivity.
  match goal with
  | H : (_ && _) = true |- _ =>
      apply andb_true_iff in H as [_ H]; apply N.leb_le in H; lia
  end.
Qed.

(** [json.dumps] writes ASCII only (ensure_ascii). *)
Lemma dumps_ascii s : ascii_text (Json.dumps s).
Proof.
  unfold Json.dumps. constructor; [reflexivity|]. apply ascii_app.
  - induction s as [|c s IH]; [constructor|].
    cbn [flat_map]. apply ascii_app; [apply escape_char_ascii | exact IH].
  - repeat constructor.
Qed.

Lemma b64encode_is_ascii data : ascii_text (Base64.b64encode data).
Proof.
  pose proof (Base64Round.b64encode_ascii data) as H.
  rewrite forallb_forall in H. apply Forall_forall. intros c Hc.
  now apply N.ltb_lt, H.
Qed.

Lemma pair_text_ascii m : ascii_text (pair_text m).
Proof.
  unfold pair_text. apply ascii_app; [apply dumps_ascii|].
  apply ascii_app; [repeat constructor|].
  apply ascii_app; [apply b64encode_is_ascii | repeat constructor].
Qed.

Lemma comma_separated_ascii l : Forall ascii_text l -> ascii_text (comma_separated l).
Proof.
  induction 1 as [|t l Ht Hl IH]; [constructor|].
  destruct l as [|t' l']; [exact Ht|].
  change (comma_separated (t :: t' :: l')) with (t ++ COMMA :: comma_separated (t' :: l')).
  apply ascii_app; [exact Ht|]. constructor; [reflexivity | exact IH].
Qed.

(** The container [pack] writes is ASCII text. *)
Lemma container_text_ascii zf : ascii_text (container_text zf).
Proof.
  unfold container_text. constructor; [reflexivity|]. apply ascii_app.
  - apply comma_separated_ascii. apply Forall_forall. intros t Ht.
    apply in_map_iff in Ht as (m & <- & _). apply pair_text_ascii.
  - repeat constructor.
Qed.

End AsciiFacts.

Module FoldFacts.
Import Disk Names NameFacts DiskFacts PlainPaths TreeInv TreeFacts StepFacts.
Import ContainerFacts.

Lemma entry_effect_plain cw out done d n m :
  plain_comp out = true -> inv cw out done d ->
  forallb plain_comp (comps m) = true ->
  (forall m', In m' done -> clash (comps m') (comps m) = false) ->
  exists d', entry_effect out (d, n) (entry_of m) = (d', S n) /\
             inv cw out (done ++ [m]) d'.
Proof.
  intros Ho I Hp Hc.
  destruct (step_plain cw out done d m Ho I Hp Hc) as (d1 & d2 & Hm & Hw & I').
  exists d2. split; [|exact I'].
  unfold entry_effect, entry_of. cbn [fst snd b64decode_value].
  rewrite Base64Round.b64decode_b64encode.
  cbn [makedirs write_bytes disk_fs]. rewrite Hm. cbn [fst snd].
  rewrite Hw. reflexivity.
Qed.

Lemma fold_plain cw out todo : forall done d n,
  plain_comp out = true -> inv cw out done d ->
  forallb (fun m => forallb plain_comp (comps m)) todo = true ->
  (forall m' m, In m' done -> In m todo -> clash (comps m') (comps m) = false) ->
  no_clash (map comps todo) = true ->
  exists d',
    fold_left (entry_effect out) (map entry_of todo) (d, n)
    = (d', (n + List.length todo)%nat) /\
    inv cw out (done ++ todo) d'.
Proof.
  induction todo as [|m todo IH]; intros done d n Ho I Hp Hc Hn.
  - exists d. cbn [map fold_left List.length]. rewrite app_nil_r.
    split; [f_equal; lia | exact I].
  - cbn [forallb] in Hp. apply andb_true_iff in Hp as [Hpm Hp].
    cbn [map no_clash] in Hn. apply andb_true_iff in Hn as [Hnm Hn].
    destruct (entry_effect_plain cw out done d n m Ho I Hpm) as (d1 & E & I1).
    { intros m' Hin. apply Hc; [exact Hin | now left]. }
    destruct (IH (done ++ [m]) d1 (S n) Ho I1 Hp) as (d' & E' & I').
    { intros m' m'' Hin Hin'. apply in_app_or in Hin as [Hin|[<-|[]]].
      - apply Hc; [exact Hin | now right].
      - rewrite forallb_forall in Hnm. apply negb_true_iff, Hnm.
        now apply in_map. }
    { exact Hn. }
    exists d'. cbn [map fold_left]. rewrite E, E'. split.
    + f_equal. cbn [List.length]. lia.
    + now rewrite <- app_assoc in I'.
Qed.

Lemma clash_refl a : clash a a = true.
Proof.
  unfold clash. rewrite <- (app_nil_r a) at 2. now rewrite is_prefix_app.
Qed.

Lemma no_clash_nodup ms :
  no_clash (map comps ms) = true -> NoDup (map filename ms).
Proof.
  induction ms as [|m ms IH]; [constructor|].
  cbn [map no_clash]. intros H. apply andb_true_iff in H as [Hm Hms].
  constructor; [|now apply IH].
  intros Hin. apply in_map_iff in Hin as (m' & E & Hin).
  rewrite forallb_forall in Hm. specialize (Hm (comps m') (in_map comps _ _ Hin)).
  unfold comps in Hm at 2. rewrite E in Hm. fold (comps m) in Hm.
  now rewrite clash_refl in Hm.
Qed.

Lemma scalar_valueb_spec c : scalar_valueb c = true -> scalar_value c.
Proof.
  unfold scalar_valueb, scalar_value. intros H.
  apply andb_true_iff in H as [H1 H2]. apply N.ltb_lt in H1.
  apply negb_true_iff in H2. split; [exact H1|]. intros [Ha Hb].
  apply N.leb_le in Ha, Hb. rewrite Ha, Hb in H2. discriminate.
Qed.

Lemma portable_name_spec n : portable_name n = true ->
  forallb plain_comp (split_sep n) = true /\ valid_name n.
Proof.
  unfold portable_name. intros H. apply andb_true_iff in H as [H1 H2].
  split; [exact H1|]. unfold valid_name. apply Forall_forall. intros c Hc.
  rewrite forallb_forall in H2. now apply scalar_valueb_spec, H2.
Qed.

Lemma good_entries ms : filter good_entry (map entry_of ms) = map entry_of ms.
Proof.
  induction ms as [|m ms IH]; [reflexivity|].
  cbn [map filter]. unfold good_entry at 1, bad_entry, entry_of at 1.
  cbn [snd b64decode_value]. rewrite Base64Round.b64decode_b64encode.
  cbn [negb]. now rewrite IH.
Qed.

End FoldFacts.

Module RoundTrip.
Import Disk Names NameFacts DiskFacts PlainPaths TreeInv TreeFacts StepFacts.
Import ContainerFacts FoldFacts AsciiFacts Utf8Facts.

Lemma resolve_single x d :
  plain_comp x = true -> is_dir_node d (cwd d) = true ->
  resolve d x = Some (cwd d ++ [x]).
Proof.
  intros Hx Hd. destruct (plain_comp_spec x Hx) as (Hne & E1 & E2 & Hs & Hn).
  unfold resolve, start.
  replace (path_ok x) with true.
  2:{ symmetry. apply (path_ok_unsplit [x]); [discriminate|].
      cbn [forallb]. now rewrite Hx. }
  rewrite (noslash_startswith x Hs), (split_sep_noslash x Hs).
  cbn [walk]. now rewrite Hd, E1, E2.
Qed.

Section RoundTrip.
Variables (zip_path lica_path output_dir : str) (d : disk) (zf : archive).
Hypothesis Hzip : zip_open zip_path d = Some zf.
Hypothesis Hcw : is_dir_node d (cwd d) = true.
Hypothesis Hlp : plain_comp lica_path = true.
Hypothesis Hout : plain_comp output_dir = true.
Hypothesis Hdiff : lica_path <> output_dir.
Hypothesis Hlpfile : is_dir_node d (cwd d ++ [lica_path]) = false.
Hypothesis Hfresh : forall suf, lookup d (cwd d ++ output_dir :: suf) = None.
Hypothesis Hport : portable_archive zf = true.

Let cw := cwd d.
Let text := container_text zf.
Let data := map byte_of_N text.
Let d1 := set_node d (cw ++ [lica_path]) (File data).
Let d2 := set_node d1 (cw ++ [output_dir]) Dir.

Lemma lp_not_out : cw ++ [output_dir] <> cw ++ [lica_path].
Proof. intros E. apply app_inv_head in E. inversion E. congruence. Qed.

Lemma pack_written : write_text lica_path text d = (d1, true).
Proof.
  cbn [write_text disk_fs]. unfold disk_write_text.
  rewrite (encode_ascii text (container_text_ascii zf)).
  unfold disk_write_bytes. rewrite (resolve_single _ _ Hlp Hcw).
  unfold is_dir_node in Hlpfile. fold cw in Hlpfile |- *.
  destruct (lookup d (cw ++ [lica_path])) as [[?|]|]; try reflexivity.
  discriminate.
Qed.

Lemma cw_dir1 : is_dir_node d1 cw = true.
Proof.
  unfold is_dir_node, d1. rewrite lookup_set_other; [exact Hcw|].
  intros E. rewrite <- (app_nil_r cw) in E at 1. apply app_inv_head in E.
  discriminate.
Qed.

Lemma out_made : makedirs output_dir d1 = (d2, true).
Proof.
  destruct (plain_comp_spec _ Hout) as (Hne & E1 & E2 & Hs & Hn).
  cbn [makedirs disk_fs]. unfold disk_makedirs, start.
  replace (path_ok output_dir) with true.
  2:{ symmetry. apply (path_ok_unsplit [output_dir]); [discriminate|].
      cbn [forallb]. now rewrite Hout. }
  rewrite (noslash_startswith _ Hs), (split_sep_noslash _ Hs).
  cbn [mkdir_p]. rewrite E1, E2.
  change (cwd d1) with cw.
  unfold d1 at 1. rewrite lookup_set_other by apply lp_not_out.
  unfold cw at 1. change (cwd d ++ [output_dir]) with (cwd d ++ output_dir :: []).
  rewrite Hfresh. reflexivity.
Qed.

Lemma below_out suf : suf <> [] ->
  lookup d2 (cw ++ output_dir :: suf) = None.
Proof.
  intros Hsuf. unfold d2, d1.
  rewrite lookup_set_other.
  - rewrite lookup_set_other; [apply Hfresh|].
    intros E. apply app_inv_head in E. inversion E. congruence.
  - intros E. apply app_inv_head in E. inversion E. congruence.
Qed.

Lemma inv_start : inv cw output_dir [] d2.
Proof.
  constructor.
  - reflexivity.
  - unfold d2. apply is_dir_set_dir, cw_dir1.
  - unfold d2. apply lookup_set_same, snoc_not_nil.
  - intros suf data0 El. destruct suf as [|s suf'].
    + unfold d2 in El. change (cw ++ [output_dir]) with (cw ++ output_dir :: []) in El.
      rewrite lookup_set_same in El by (now destruct cw). discriminate.
    + rewrite below_out in El by discriminate. discriminate.
  - intros suf Hsuf El. rewrite below_out in El by exact Hsuf. discriminate.
  - intros m [].
Qed.

Lemma file_members_portable :
  forallb (fun m => forallb plain_comp (comps m)) (file_members zf) = true /\
  Forall (fun m => valid_name (filename m)) (file_members zf) /\
  no_clash (map comps (file_members zf)) = true.
Proof.
  unfold portable_archive in Hport. apply andb_true_iff in Hport as [H1 H2].
  rewrite forallb_forall in H1. repeat split.
  - apply forallb_forall. intros m Hm. now apply portable_name_spec, H1.
  - apply Forall_forall. intros m Hm. now apply portable_name_spec, H1.
  - exact H2.
Qed.

Lemma container_file : file_at d2 lica_path = Some data.
Proof.
  unfold file_at.
  assert (Hd2 : is_dir_node d2 (cwd d2) = true).
  { unfold d2. apply is_dir_set_dir, cw_dir1. }
  rewrite (resolve_single _ _ Hlp Hd2). change (cwd d2) with cw.
  unfold d2. rewrite lookup_set_other.
  - unfold d1. rewrite lookup_set_same by apply snoc_not_nil. reflexivity.
  - intros E. now apply lp_not_out.
Qed.

Lemma container_read streaming :
  entries_seen streaming lica_path d2 = Some (map entry_of (file_members zf)).
Proof.
  destruct file_members_portable as (_ & Hval & Hnc).
  pose proof (loads_container_text zf Hval) as Hl.
  rewrite container_entries_map in Hl. fold text in Hl.
  pose proof (decode_ascii text (container_text_ascii zf)) as Hd.
  unfold entries_seen. destruct streaming.
  - cbn [read_bytes disk_fs]. unfold disk_read_bytes. rewrite container_file.
    unfold Ijson.kvitems. fold data in Hd. rewrite Hd.
    rewrite (IjsonFacts.kvitems_text_agree text _ Hl); [reflexivity|].
    apply Forall_forall. intros kv Hkv. apply in_map_iff in Hkv as (m & <- & _).
    now eexists.
  - unfold json_load. cbn [read_text disk_fs]. unfold disk_read_text.
    rewrite container_file. fold data in Hd. rewrite Hd, Hl.
    cbn [items]. rewrite py_dict_nodup; [reflexivity|].
    rewrite map_map. cbn [entry_of fst]. now apply no_clash_nodup.
Qed.


End RoundTrip.


End RoundTrip.

(** ** Further properties of [pack] and [unpack] *)

Module ProgressFacts.

Lemma div_step n :
  (if Nat.eqb (S n mod 100) 0
   then S n / 100 = S (n / 100) /\ S n = 100 * S (n / 100)
   else S n / 100 = n / 100)%nat.
Proof.
  pose proof (Nat.div_mod_eq n 100) as E. pose proof (Nat.div_mod_eq (S n) 100) as E'.
  pose proof (Nat.mod_upper_bound n 100 ltac:(discriminate)) as B.
  pose proof (Nat.mod_upper_bound (S n) 100 ltac:(discriminate)) as B'.
  destruct (Nat.eqb_spec (S n mod 100) 0) as [Z|NZ]; lia.
Qed.

Lemma progress_marks_S n :
  progress_marks (S n)
  = progress_marks n ++ (if Nat.eqb (S n mod 100) 0 then [S n] else []).
Proof.
  unfold progress_marks. pose proof (div_step n) as H.
  destruct (Nat.eqb (S n mod 100) 0).
  - destruct H as [Hq Hn]. rewrite Hq, seq_S, map_app. cbn [map].
    f_equal. f_equal. exact (eq_sym Hn).
  - now rewrite H, app_nil_r.
Qed.

Lemma pack_member_log st info :
  pack_log st = map MsgPackProgress (progress_marks (file_count st)) ->
  pack_log (pack_member st info)
  = map MsgPackProgress (progress_marks (file_count (pack_member st info))).
Proof.
  intros H. unfold pack_member. destruct (is_dir info); [exact H|].
  cbn [pack_log file_count]. rewrite progress_marks_S, map_app, H.
  now destruct (Nat.eqb (S (file_count st) mod 100) 0).
Qed.

Lemma pack_fold_log zf : forall st,
  pack_log st = map MsgPackProgress (progress_marks (file_count st)) ->
  pack_log (fold_left pack_member zf st)
  = map MsgPackProgress (progress_marks (file_count (fold_left pack_member zf st))).
Proof.
  induction zf as [|info zf IH]; intros st H; [exact H|].
  cbn [fold_left]. apply IH. now apply pack_member_log.
Qed.

End ProgressFacts.


(** Whatever the member names and contents are, the text [pack] writes is
    ASCII: encoding it as UTF-8 cannot fail, and gives one byte per
    character. *)
Theorem pack_output_is_ascii zf :
  let text := out_f (pack_loop zf) ++ [RBRACE] in
  Forall (fun c => c < 128) text /\
  Utf8.encode text = Some (map byte_of_N text).
Proof.
  intros text. subst text. destruct (pack_loop_spec zf) as [-> _].
  pose proof (AsciiFacts.container_text_ascii zf) as Ha.
  split; [exact Ha | now apply Utf8Facts.encode_ascii].
Qed.

Module Base64Length.
Import Base64.

Lemma b64encode_length_step (n : nat) : forall data, (List.length data <= n)%nat ->
  (List.length (b64encode data) mod 4 = 0)%nat.
Proof.
  induction n as [|n IH]; intros data Hlen.
  - destruct data; [reflexivity | simpl in Hlen; lia].
  - destruct data as [|x [|y [|z rest]]]; try reflexivity.
    cbn [b64encode List.length].
    assert (Hr : (List.length rest <= n)%nat) by (simpl in Hlen; lia).
    specialize (IH rest Hr).
    change (S (S (S (S (List.length (b64encode rest))))))
      with (4 + List.length (b64encode rest))%nat.
    pose proof (Nat.div_mod_eq (List.length (b64encode rest)) 4) as E.
    pose proof (Nat.div_mod_eq (4 + List.length (b64encode rest)) 4) as E'.
    pose proof (Nat.mod_upper_bound (4 + List.length (b64encode rest)) 4
                  ltac:(discriminate)) as B.
    lia.
Qed.

End Base64Length.

(** The value [pack] writes for a member is padded base64 (its length is a
    multiple of four), and [base64.b64decode] in [unpack] gives the bytes of
    the member back. *)
Theorem packed_value_round_trip (m : member) :
  let b64_str := Base64.b64encode (payload m) in
  (List.length b64_str mod 4 = 0)%nat /\
  Base64.b64decode b64_str = Some (payload m) /\
  b64decode_value (snd (entry_of m)) = Some (payload m).
Proof.
  intros b64_str. subst b64_str. split; [|split].
  - now apply (Base64Length.b64encode_length_step (List.length (payload m))).
  - apply Base64Round.b64decode_b64encode.
  - unfold entry_of. cbn [snd b64decode_value].
    apply Base64Round.b64decode_b64encode.
Qed.

(** A member name written by [json.dumps] is read back by [json.loads] as
    the same name. *)
Theorem key_round_trip name :
  valid_name name -> Json.loads (Json.dumps name) = Some (Json.JStr name).
Proof.
  intros Hv. unfold Json.loads, Json.dumps.
  change (match QUOTE :: flat_map Json.escape_char name ++ [QUOTE] with
          | 0xFEFF :: _ => None
          | _ => match Json.scan_once true
                         (Json.fuel_for (QUOTE :: flat_map Json.escape_char name ++ [QUOTE]))
                         (Json.skip_ws (QUOTE :: flat_map Json.escape_char name ++ [QUOTE]))
                 with
                 | Some (v, r) => match Json.skip_ws r with
                                  | [] => Some v
                                  | _ :: _ => None
                                  end
                 | None => None
                 end
          end = Some (Json.JStr name)).
  change (Json.skip_ws (QUOTE :: flat_map Json.escape_char name ++ [QUOTE]))
    with (QUOTE :: flat_map Json.escape_char name ++ [QUOTE]).
  unfold Json.fuel_for. rewrite ContainerFacts.scan_once_S.
  change (QUOTE =? QUOTE) with true. cbv iota.
  rewrite (JsonFacts.scanstring_escaped name [] Hv). reflexivity.
Qed.

Section UnpackRuns.
Context {W : Type} `{FileSystem W}.

(** With the streaming parser the only exception that leaves [unpack] is
    the one of [os.makedirs(output_dir)]: whatever the container is, the
    streaming branch returns, and its last line is the failure of the
    parse or the count. *)
Theorem stream_branch_always_returns lica_path output_dir (w : W) :
  let r := unpack true lica_path output_dir true w in
  (result r = if snd (makedirs output_dir w) then Returned else Raised OSError) /\
  (snd (makedirs output_dir w) = true ->
   last (stdout r) MsgReadFailed = MsgStreamFailed \/
   exists n, last (stdout r) MsgReadFailed = MsgUnpackDone n output_dir).
Proof.
  intros r. subst r. rewrite unpack_unfold. cbn [andb].
  destruct (snd (makedirs output_dir w)); [|split; [reflexivity | discriminate]].
  unfold unpack_stream.
  destruct (read_bytes lica_path (fst (makedirs output_dir w))) as [data|].
  - destruct (Ijson.kvitems data) as [pairs ok]. cbn [result stdout].
    split; [reflexivity|]. intros _.
    destruct ok; rewrite last_last; [right; now eexists | now left].
  - cbn. split; [reflexivity|]. intros _. now left.
Qed.

(** A container that holds no entry: the run returns with a count of 0 and
    the environment as it was. *)
Theorem unpack_no_entries streaming lica_path output_dir (w : W) :
  entries_seen streaming lica_path w = Some [] ->
  (if streaming then unpack_stream lica_path output_dir w
   else unpack_bulk lica_path output_dir w)
  = {| result := Returned; stdout := [MsgUnpackDone 0 output_dir]; final := w |}.
Proof.
  intros E. destruct streaming.
  - now rewrite (unpack_stream_entries lica_path output_dir w [] E).
  - now rewrite (unpack_bulk_entries lica_path output_dir w [] E).
Qed.

Lemma failures_app l l' : failures (l ++ l') = (failures l + failures l')%nat.
Proof. unfold failures. now rewrite filter_app, length_app. Qed.

Lemma stream_entry_accounts out (st : unpack_state W) kv :
  (count (stream_entry out st kv) + failures (unpack_log (stream_entry out st kv))
   = S (count st + failures (unpack_log st)))%nat.
Proof.
  unfold stream_entry, entry_failed. destruct kv as [key v].
  destruct (b64decode_value v) as [content|].
  - destruct (makedirs _ (fs st)) as [w1 [|]].
    + destruct (write_bytes _ content w1) as [w2 [|]];
        cbn [count unpack_log]; rewrite failures_app.
      * destruct (Nat.eqb _ 0); cbn; lia.
      * cbn. lia.
    + cbn [count unpack_log]. rewrite failures_app. cbn. lia.
  - cbn [count unpack_log]. rewrite failures_app. cbn. lia.
Qed.

Lemma bulk_entry_accounts out (st : unpack_state W) kv :
  (count (bulk_entry out st kv) + failures (unpack_log (bulk_entry out st kv))
   = S (count st + failures (unpack_log st)))%nat.
Proof.
  unfold bulk_entry, entry_failed. destruct kv as [key v].
  destruct (b64decode_value v) as [content|].
  - destruct (makedirs _ (fs st)) as [w1 [|]].
    + destruct (write_bytes _ content w1) as [w2 [|]];
        cbn [count unpack_log]; rewrite ?failures_app; cbn; lia.
    + cbn [count unpack_log]. rewrite failures_app. cbn. lia.
  - cbn [count unpack_log]. rewrite failures_app. cbn. lia.
Qed.

Lemma fold_accounts (step : unpack_state W -> str * Json.json -> unpack_state W) :
  (forall st kv, (count (step st kv) + failures (unpack_log (step st kv))
                  = S (count st + failures (unpack_log st)))%nat) ->
  forall entries st,
  (count (fold_left step entries st) + failures (unpack_log (fold_left step entries st))
   = count st + failures (unpack_log st) + List.length entries)%nat.
Proof.
  intros Hstep. induction entries as [|kv entries IH]; intros st.
  - cbn. lia.
  - cbn [fold_left List.length]. rewrite IH, Hstep. lia.
Qed.


(** In bulk mode a container that cannot be read, or whose text is not
    JSON, is reported and nothing is written: the environment is the one
    [os.makedirs(output_dir)] left. *)
Theorem bulk_unreadable_is_reported HAS_IJSON lica_path output_dir (w : W) :
  snd (makedirs output_dir w) = true ->
  json_load lica_path (fst (makedirs output_dir w)) = None ->
  unpack HAS_IJSON lica_path output_dir false w
  = {| result := Returned; stdout := [MsgReadFailed];
       final := fst (makedirs output_dir w) |}.
Proof.
  intros Hm Hl. rewrite unpack_unfold, Hm. cbn [andb].
  unfold unpack_bulk. now rewrite Hl.
Qed.

End UnpackRuns.

Module TruncatedFacts.
Import Json Ijson JsonFacts ContainerFacts IjsonFacts.

(** What [pack] has written before the closing brace. *)
Lemma out_f_pack_loop zf :
  out_f (pack_loop zf) = LBRACE :: comma_separated (map pair_text (file_members zf)).
Proof.
  destruct (pack_loop_spec zf) as [Ho _]. unfold container_text in Ho.
  change (LBRACE :: comma_separated (map pair_text (file_members zf)) ++ [RBRACE])
    with ((LBRACE :: comma_separated (map pair_text (file_members zf))) ++ [RBRACE]) in Ho.
  now apply app_inv_tail in Ho.
Qed.

Lemma out_f_ascii zf : ascii_text (out_f (pack_loop zf)).
Proof.
  pose proof (AsciiFacts.container_text_ascii zf) as Ha.
  destruct (pack_loop_spec zf) as [Ho _]. rewrite <- Ho in Ha.
  unfold ascii_text in *. now apply Forall_app in Ha.
Qed.

Lemma kv_members_cut ms : forall fuel,
  ms <> [] -> Forall (fun m => valid_name (filename m)) ms ->
  (List.length ms < fuel)%nat ->
  kv_members fuel (members_text ms) = (map entry_of ms, false).
Proof.
  induction ms as [|m ms IH]; intros fuel Hne Hval Hfuel; [congruence|].
  inversion Hval as [|? ? Hm Hms]; subst.
  destruct fuel as [|fuel]; [simpl in Hfuel; lia|].
  rewrite kv_members_S. cbn [members_text].
  rewrite scanstring_escaped by exact Hm.
  cbn [skip_ws].
  change (is_ws COLON) with false. cbv iota.
  change (COLON =? COLON) with true. cbv iota.
  cbn [skip_ws]. change (is_ws QUOTE) with false. cbv iota.
  destruct fuel as [|fuel]; [simpl in Hfuel; lia|].
  rewrite scan_once_S. change (QUOTE =? QUOTE) with true. cbv iota.
  rewrite scanstring_plain_str by apply b64encode_plain.
  destruct ms as [|m' ms].
  - cbn [skip_ws map]. reflexivity.
  - cbn [skip_ws].
    change (is_ws COMMA) with false. cbv iota.
    change (COMMA =? RBRACE) with false.
    change (COMMA =? COMMA) with true. cbv iota.
    cbn [skip_ws]. change (is_ws QUOTE) with false. cbv iota.
    change (QUOTE =? QUOTE) with true. cbv iota.
    rewrite IH; [reflexivity|discriminate|exact Hms|].
    simpl in Hfuel |- *. lia.
Qed.

Lemma parse_members_cut ms : forall fuel,
  ms <> [] -> Forall (fun m => valid_name (filename m)) ms ->
  parse_members true fuel (members_text ms) = None.
Proof.
  induction ms as [|m ms IH]; intros fuel Hne Hval; [congruence|].
  inversion Hval as [|? ? Hm Hms]; subst.
  destruct fuel as [|fuel]; [reflexivity|].
  rewrite parse_members_S. cbn [members_text].
  rewrite scanstring_escaped by exact Hm.
  cbn [skip_ws].
  change (is_ws COLON) with false. cbv iota.
  change (COLON =? COLON) with true. cbv iota.
  cbn [skip_ws]. change (is_ws QUOTE) with false. cbv iota.
  destruct fuel as [|fuel]; [reflexivity|].
  rewrite scan_once_S. change (QUOTE =? QUOTE) with true. cbv iota.
  rewrite scanstring_plain_str by apply b64encode_plain.
  destruct ms as [|m' ms].
  - cbn [skip_ws]. reflexivity.
  - cbn [skip_ws].
    change (is_ws COMMA) with false. cbv iota.
    change (COMMA =? RBRACE) with false.
    change (COMMA =? COMMA) with true. cbv iota.
    cbn [skip_ws]. change (is_ws QUOTE) with false. cbv iota.
    change (QUOTE =? QUOTE) with true. cbv iota.
    rewrite IH; [reflexivity|discriminate|exact Hms].
Qed.

(** The streaming parser on a container without its closing brace: all
    the pairs, then the error. *)
Lemma kvitems_text_cut zf :
  Forall (fun m => valid_name (filename m)) (file_members zf) ->
  kvitems_text (out_f (pack_loop zf)) = (container_entries zf, false).
Proof.
  intros Hval. rewrite out_f_pack_loop, container_entries_map. unfold kvitems_text.
  destruct (file_members zf) as [|m ms] eqn:E.
  - reflexivity.
  - rewrite comma_separated_members.
    cbn [skip_ws]. change (is_ws LBRACE) with false. cbv iota.
    change (LBRACE =? LBRACE) with true. cbv iota.
    cbn [skip_ws]. change (is_ws QUOTE) with false. cbv iota.
    change (QUOTE =? RBRACE) with false. change (QUOTE =? QUOTE) with true.
    cbv iota.
    apply kv_members_cut; [discriminate | exact Hval |].
    pose proof (members_text_length (m :: ms)) as Hlen.
    cbn [List.length] in *. lia.
Qed.

(** [json.loads] on a container without its closing brace: an error. *)
Lemma loads_cut zf :
  Forall (fun m => valid_name (filename m)) (file_members zf) ->
  loads (out_f (pack_loop zf)) = None.
Proof.
  intros Hval. rewrite out_f_pack_loop. unfold loads.
  change (scan_once true (fuel_for ?s) (skip_ws ?s))
    with (scan_once true (S (S (List.length s))) (skip_ws s)).
  destruct (file_members zf) as [|m ms] eqn:E.
  - reflexivity.
  - rewrite comma_separated_members.
    cbn [skip_ws]. change (is_ws LBRACE) with false. cbv iota.
    rewrite scan_once_S.
    change (LBRACE =? QUOTE) with false. change (LBRACE =? LBRACE) with true.
    cbv iota. cbn [skip_ws]. change (is_ws QUOTE) with false. cbv iota.
    change (QUOTE =? RBRACE) with false. change (QUOTE =? QUOTE) with true.
    cbv iota.
    rewrite parse_members_cut; [reflexivity | discriminate | exact Hval].
Qed.

End TruncatedFacts.

Section Truncated.
Context {W : Type} `{FileSystem W}.


(** The same container in bulk mode: [json.load] fails, the failure is
    printed, and nothing is written. *)
Theorem truncated_container_bulk lica_path output_dir (w : W) zf :
  Forall (fun m => valid_name (filename m)) (file_members zf) ->
  read_text lica_path w = Some (out_f (pack_loop zf)) ->
  unpack_bulk lica_path output_dir w
  = {| result := Returned; stdout := [MsgReadFailed]; final := w |}.
Proof.
  intros Hval Ht. unfold unpack_bulk, json_load. rewrite Ht.
  now rewrite (TruncatedFacts.loads_cut zf Hval).
Qed.

End Truncated.

Module DictFacts.
Import Json.

Lemma str_eqb_true a b : str_eqb a b = true <-> a = b.
Proof. unfold str_eqb. destruct (str_eq_dec a b); split; congruence. Qed.

Lemma str_eqb_same a : str_eqb a a = true.
Proof. now apply str_eqb_true. Qed.

Lemma first_dict_set k d : forall k0 v0,
  first_value k (dict_set d k0 v0)
  = if str_eqb k0 k then Some v0 else first_value k d.
Proof.
  induction d as [|[k' v'] d IH]; intros k0 v0; [reflexivity|].
  cbn [dict_set]. destruct (str_eqb k' k0) eqn:E0.
  - apply str_eqb_true in E0. subst k'. cbn [first_value].
    now destruct (str_eqb k0 k).
  - cbn [first_value]. rewrite IH.
    destruct (str_eqb k' k) eqn:E1; [|reflexivity].
    apply str_eqb_true in E1. subst k'.
    destruct (str_eqb k0 k) eqn:E2; [|reflexivity].
    apply str_eqb_true in E2. subst k0. now rewrite str_eqb_same in E0.
Qed.

Lemma keys_dict_set d : forall k v k',
  In k' (map fst (dict_set d k v)) <-> k' = k \/ In k' (map fst d).
Proof.
  induction d as [|[k0 v0] d IH]; intros k v k'.
  - cbn. intuition.
  - cbn [dict_set]. destruct (str_eqb k0 k) eqn:E.
    + apply str_eqb_true in E. subst k0. cbn. intuition.
    + cbn [map fst In]. rewrite IH. intuition.
Qed.

Lemma nodup_dict_set d : forall k v,
  NoDup (map fst d) -> NoDup (map fst (dict_set d k v)).
Proof.
  induction d as [|[k0 v0] d IH]; intros k v Hnd.
  - cbn. constructor; [intros [] | constructor].
  - cbn [dict_set]. inversion Hnd as [|? ? Hnin Hnd']; subst.
    destruct (str_eqb k0 k) eqn:E.
    + exact Hnd.
    + cbn [map fst]. constructor; [|now apply IH].
      rewrite keys_dict_set. intros [->|Hin]; [|contradiction].
      now rewrite str_eqb_same in E.
Qed.

Lemma fold_dict pairs : forall acc,
  NoDup (map fst acc) ->
  let d := fold_left (fun d kv => dict_set d (fst kv) (snd kv)) pairs acc in
  NoDup (map fst d) /\
  (forall k, In k (map fst d) <-> In k (map fst acc) \/ In k (map fst pairs)) /\
  (forall k, first_value k d
             = match last_value k pairs with
               | Some v => Some v
               | None => first_value k acc
               end).
Proof.
  induction pairs as [|[k0 v0] pairs IH]; intros acc Hnd.
  - cbn. repeat split; intuition.
  - cbn [fold_left fst snd].
    destruct (IH (dict_set acc k0 v0) (nodup_dict_set acc k0 v0 Hnd)) as (N & K & F).
    cbv zeta in N, K, F. split; [exact N|]. split.
    + intros k. rewrite K, keys_dict_set. cbn [map fst In]. intuition.
    + intros k. rewrite F, first_dict_set. cbn [last_value].
      destruct (last_value k pairs); [reflexivity|].
      now destruct (str_eqb k0 k).
Qed.

Lemma first_of_in d : forall k v,
  NoDup (map fst d) -> In (k, v) d -> first_value k d = Some v.
Proof.
  induction d as [|[k0 v0] d IH]; intros k v Hnd Hin; [destruct Hin|].
  inversion Hnd as [|? ? Hnin Hnd']; subst. cbn [first_value].
  destruct Hin as [E|Hin].
  - inversion E; subst. now rewrite str_eqb_same.
  - destruct (str_eqb k0 k) eqn:E; [|now apply IH].
    apply str_eqb_true in E. subst k0. exfalso. apply Hnin.
    apply in_map_iff. now exists (k, v).
Qed.

End DictFacts.

(** What the bulk branch iterates over ([data.items()] of the parsed
    object): each key of the container once, with the value of its last
    occurrence. *)
Theorem bulk_sees_each_key_once pairs :
  items (Json.JObj pairs) = Some (Json.py_dict pairs) /\
  NoDup (map fst (Json.py_dict pairs)) /\
  (forall k, In k (map fst (Json.py_dict pairs)) <-> In k (map fst pairs)) /\
  (forall k v, In (k, v) (Json.py_dict pairs) -> last_value k pairs = Some v).
Proof.
  destruct (DictFacts.fold_dict pairs [] (NoDup_nil _)) as (N & K & F).
  cbv zeta in N, K, F. fold (Json.py_dict pairs) in N, K, F.
  split; [reflexivity|]. split; [exact N|]. split.
  - intros k. rewrite K. cbn. intuition.
  - intros k v Hin. pose proof (DictFacts.first_of_in _ k v N Hin) as E.
    rewrite F in E. cbn [first_value] in E.
    now destruct (last_value k pairs).
Qed.

Module DiskRuns.
Import Disk DiskInv DiskFacts.

Lemma wf_with_archive zip_path zf : wf (with_archive zip_path zf).
Proof. split; [reflexivity|]. intros c Hc. exfalso. now apply Hc. Qed.

(** [os.makedirs] on a path that leads to a file fails, and creates
    nothing. *)
Lemma mkdir_p_blocked d data comps : forall cur c,
  wf d -> is_dir_node d cur = true ->
  walk d cur comps = Some c -> lookup d c = Some (File data) ->
  mkdir_p d cur comps = (d, false).
Proof.
  induction comps as [|x rest IH]; intros cur c Hwf Hd Hw Hl.
  - cbn in Hw. inversion Hw; subst. unfold is_dir_node in Hd.
    rewrite Hl in Hd. discriminate.
  - cbn [walk] in Hw. rewrite Hd in Hw. cbn [mkdir_p].
    destruct (str_eqb x [] || str_eqb x DOT); [now apply (IH cur c)|].
    destruct (str_eqb x DOTDOT).
    + apply (IH (parent cur) c); auto. now apply wf_parent.
    + destruct (lookup d (cur ++ [x])) as [[data'|]|] eqn:El.
      * reflexivity.
      * apply (IH (cur ++ [x]) c); auto. unfold is_dir_node. now rewrite El.
      * destruct rest as [|y rest'].
        -- cbn in Hw. inversion Hw; subst. congruence.
        -- cbn [walk] in Hw. unfold is_dir_node in Hw at 1. rewrite El in Hw.
           discriminate.
Qed.

(** [unpack] with an output path that leads to a file: [os.makedirs]
    raises before the container is looked at; nothing is printed and the
    tree is as it was. *)
Theorem unpack_into_a_file HAS_IJSON lica_path output_dir use_stream d data :
  wf d -> file_at d output_dir = Some data ->
  unpack HAS_IJSON lica_path output_dir use_stream d
  = {| result := Raised OSError; stdout := []; final := d |}.
Proof.
  intros Hwf Hf. unfold file_at, resolve in Hf.
  unfold unpack. cbn [makedirs disk_fs]. unfold disk_makedirs.
  destruct (path_ok output_dir); [|discriminate].
  destruct (walk d (start d output_dir) (split_sep output_dir)) as [c|] eqn:Hw;
    [|discriminate].
  destruct (lookup d c) as [[data'|]|] eqn:Hl; try discriminate.
  now rewrite (mkdir_p_blocked d data' _ _ c Hwf (wf_start d output_dir Hwf) Hw Hl).
Qed.

(** [pack] with an output path (without a NUL character) that is a
    directory, or that leads nowhere: [open] raises after the archive was
    opened; nothing is printed and the tree is as it was. *)
Theorem pack_to_unwritable_path zip_path lica_path d zf :
  zip_open zip_path d = Some zf ->
  nonul lica_path ->
  isdir d lica_path = true \/ resolve d lica_path = None ->
  pack zip_path lica_path d
  = {| result := Raised OSError; stdout := []; final := d |}.
Proof.
  intros Hz _ Hp. unfold pack. rewrite Hz.
  cbn [write_text disk_fs]. unfold disk_write_text.
  destruct (pack_loop_spec zf) as [-> _].
  rewrite (Utf8Facts.encode_ascii _ (AsciiFacts.container_text_ascii zf)).
  unfold disk_write_bytes. destruct Hp as [Hd|Hn].
  - unfold isdir in Hd. destruct (resolve d lica_path) as [c|]; [|discriminate].
    unfold is_dir_node in Hd. destruct (lookup d c) as [[?|]|]; try discriminate.
    reflexivity.
  - now rewrite Hn.
Qed.


End DiskRuns.

Section UnpackProgress.
Context {W : Type} `{FileSystem W}.

Lemma unpack_progress_app l l' :
  unpack_progress (l ++ l') = unpack_progress l ++ unpack_progress l'.
Proof. unfold unpack_progress. apply flat_map_app. Qed.

Lemma stream_entry_progress out (st : unpack_state W) kv :
  unpack_progress (unpack_log st) = progress_marks (count st) ->
  unpack_progress (unpack_log (stream_entry out st kv))
  = progress_marks (count (stream_entry out st kv)).
Proof.
  intros Hst. unfold stream_entry, entry_failed. destruct kv as [key v].
  destruct (b64decode_value v) as [content|].
  - destruct (makedirs _ (fs st)) as [w1 [|]].
    + destruct (write_bytes _ content w1) as [w2 [|]];
        cbn [count unpack_log]; rewrite unpack_progress_app, Hst.
      * rewrite ProgressFacts.progress_marks_S.
        now destruct (Nat.eqb (S (count st) mod 100) 0).
      * cbn. now rewrite app_nil_r.
    + cbn [count unpack_log]. rewrite unpack_progress_app, Hst. cbn.
      now rewrite app_nil_r.
  - cbn [count unpack_log]. rewrite unpack_progress_app, Hst. cbn.
    now rewrite app_nil_r.
Qed.

Lemma bulk_entry_progress out (st : unpack_state W) kv :
  unpack_progress (unpack_log st) = [] ->
  unpack_progress (unpack_log (bulk_entry out st kv)) = [].
Proof.
  intros Hst. unfold bulk_entry, entry_failed. destruct kv as [key v].
  destruct (b64decode_value v) as [content|].
  - destruct (makedirs _ (fs st)) as [w1 [|]].
    + destruct (write_bytes _ content w1) as [w2 [|]];
        cbn [unpack_log]; rewrite ?unpack_progress_app, Hst; reflexivity.
    + cbn [unpack_log]. now rewrite unpack_progress_app, Hst.
  - cbn [unpack_log]. now rewrite unpack_progress_app, Hst.
Qed.

Lemma fold_stream_progress out entries : forall st : unpack_state W,
  unpack_progress (unpack_log st) = progress_marks (count st) ->
  let st' := fold_left (stream_entry out) entries st in
  unpack_progress (unpack_log st') = progress_marks (count st').
Proof.
  induction entries as [|kv entries IH]; intros st Hst; [exact Hst|].
  cbn [fold_left]. apply IH. now apply stream_entry_progress.
Qed.

Lemma fold_bulk_progress out entries : forall st : unpack_state W,
  unpack_progress (unpack_log st) = [] ->
  unpack_progress (unpack_log (fold_left (bulk_entry out) entries st)) = [].
Proof.
  induction entries as [|kv entries IH]; intros st Hst; [exact Hst|].
  cbn [fold_left]. apply IH. now apply bulk_entry_progress.
Qed.

(** The streaming branch prints a progress line at the 100th, 200th, ...
    file it has written and at no other moment; the bulk branch prints
    none. *)
Theorem unpack_progress_lines lica_path output_dir (w : W) :
  (forall n, reported_count (unpack_stream lica_path output_dir w) = Some n ->
     unpack_progress (stdout (unpack_stream lica_path output_dir w))
     = progress_marks n) /\
  unpack_progress (stdout (unpack_bulk lica_path output_dir w)) = [].
Proof.
  split.
  - intros n. unfold unpack_stream.
    destruct (read_bytes lica_path w) as [data|]; [|discriminate].
    destruct (Ijson.kvitems data) as [pairs ok].
    unfold reported_count. cbn [stdout].
    destruct ok; rewrite last_last; [|discriminate].
    intros E. inversion E; subst n.
    rewrite unpack_progress_app. cbn. rewrite app_nil_r.
    now apply fold_stream_progress.
  - unfold unpack_bulk. destruct (json_load lica_path w) as [data|]; [|reflexivity].
    destruct (items data) as [entries|]; [|reflexivity].
    cbn [stdout]. rewrite unpack_progress_app. cbn. rewrite app_nil_r.
    now apply fold_bulk_progress.
Qed.

End UnpackProgress.

Module DuplicateKeys.
Import Json.

Lemma dict_set_length d : forall k v,
  (List.length (dict_set d k v) <= S (List.length d))%nat.
Proof.
  induction d as [|[k0 v0] d IH]; intros k v; [cbn; lia|].
  cbn [dict_set]. destruct (str_eqb k0 k); cbn [List.length]; [lia|].
  specialize (IH k v). lia.
Qed.

Lemma py_dict_length pairs :
  (List.length (py_dict pairs) <= List.length pairs)%nat.
Proof.
  unfold py_dict.
  assert (H : forall acc,
            (List.length (fold_left (fun d kv => dict_set d (fst kv) (snd kv)) pairs acc)
             <= List.length acc + List.length pairs)%nat).
  { induction pairs as [|kv pairs IH]; intros acc; cbn [fold_left List.length]; [lia|].
    specialize (IH (dict_set acc (fst kv) (snd kv))).
    pose proof (dict_set_length acc (fst kv) (snd kv)). lia. }
  apply (H []).
Qed.

End DuplicateKeys.


(** ** Instances

    Each lemma below applies one of the theorems above at a concrete
    archive or container. *)

Module Witnesses.
Import Disk Samples.

(** C10 at an archive path that does not open. *)
Lemma pack_zip_failure_hello :
  let d := with_archive (u "in.zip") hello in
  zip_open (u "other.zip") d = None /\
  pack (u "other.zip") (u "c.lica") d
  = {| result := Returned; stdout := [MsgZipFailed]; final := d |}.
Proof.
  split; [reflexivity|].
  apply pack_zip_failure_leaves_files. reflexivity.
Defined.

(** C9 at the key [../evil.txt]: the file is written beside the output
    directory. *)
Lemma destination_of_dotdot_key :
  let output_dir := u "out" in
  let key := u "../evil.txt" in
  let st := unpack_init (fst (makedirs output_dir (with_archive [] []))) in
  let full_path := PosixPath.join output_dir key in
  let made := makedirs (PosixPath.dirname full_path) (fs st) in
  (fs (stream_entry output_dir st (key, Json.JStr (u "eA==")))
   = fst (write_bytes full_path (bytes_of "x") (fst made)) /\
   fs (bulk_entry output_dir st (key, Json.JStr (u "eA==")))
   = fst (write_bytes full_path (bytes_of "x") (fst made)) /\
   (exists prefix, full_path = prefix ++ key) /\
   (startswith [SLASH] key = true -> full_path = key)) /\
  full_path = u "out/../evil.txt" /\
  file_at (fs (bulk_entry output_dir st (key, Json.JStr (u "eA==")))) (u "evil.txt")
  = Some (bytes_of "x").
Proof.
  split; [|split; reflexivity].
  apply (destination_is_unchecked_join (u "out") (u "../evil.txt")
           (Json.JStr (u "eA==")) (bytes_of "x")); reflexivity.
Defined.




(** C5 at an archive that holds one directory. *)
Lemma pack_only_directory :
  let w := with_archive (u "in.zip") only_directory in
  (file_members only_directory = [] ->
   final (pack (u "in.zip") (u "c.lica") w)
   = fst (write_text (u "c.lica") [LBRACE; RBRACE] w) /\
   (snd (write_text (u "c.lica") [LBRACE; RBRACE] w) = true ->
    result (pack (u "in.zip") (u "c.lica") w) = Returned /\
    reported_count (pack (u "in.zip") (u "c.lica") w) = Some O)) /\
  out_f (pack_loop only_directory) = out_f (pack_loop (file_members only_directory)) /\
  file_count (pack_loop only_directory) = List.length (file_members only_directory).
Proof.
  apply (pack_without_files (u "in.zip") (u "c.lica")
           (with_archive (u "in.zip") only_directory) only_directory).
  reflexivity.
Defined.

(** C6 at the key of the specification, [a/b/c.txt]. *)
Lemma entry_makes_directories_nested :
  let st := unpack_init (with_archive [] []) in
  let st' := entry_step false (u "out") st (u "a/b/c.txt", Json.JStr (u "eA==")) in
  let full_path := PosixPath.join (u "out") (u "a/b/c.txt") in
  (fs st' = fst (write_bytes full_path (bytes_of "x")
                   (fst (makedirs (PosixPath.dirname full_path) (fs st)))) /\
   isdir (fs st') (PosixPath.dirname full_path) = true /\
   file_at (fs st') full_path = Some (bytes_of "x") /\
   DiskInv.wf (fs st')) /\
  isdir (fs st) (u "out") = false /\
  isdir (fs st') (u "out/a") = true /\
  isdir (fs st') (u "out/a/b") = true.
Proof.
  split; [|repeat split; reflexivity].
  apply (DiskClaims.entry_makes_directories false (u "out") (u "a/b/c.txt")
           (Json.JStr (u "eA==")) (bytes_of "x") (unpack_init (with_archive [] []))).
  - split; [reflexivity|]. intros c Hc. exfalso. apply Hc. reflexivity.
  - reflexivity.
  - reflexivity.
Defined.


End Witnesses.

(** ** Instances of the further properties *)

Module MoreWitnesses.
Import Disk Samples MoreSamples.


Lemma key_round_trip_odd_name :
  Json.loads (Json.dumps odd_name) = Some (Json.JStr odd_name).
Proof.
  apply key_round_trip.
  repeat constructor; apply FoldFacts.scalar_valueb_spec; reflexivity.
Defined.

Lemma unpack_empty_object :
  let w := disk_with [LBRACE; RBRACE] in
  unpack_stream (u "c.lica") (u "out") w
  = {| result := Returned; stdout := [MsgUnpackDone 0 (u "out")]; final := w |} /\
  unpack_bulk (u "c.lica") (u "out") w
  = {| result := Returned; stdout := [MsgUnpackDone 0 (u "out")]; final := w |}.
Proof.
  split.
  - apply (unpack_no_entries true (u "c.lica") (u "out") (disk_with [LBRACE; RBRACE])).
    vm_compute. reflexivity.
  - apply (unpack_no_entries false (u "c.lica") (u "out") (disk_with [LBRACE; RBRACE])).
    vm_compute. reflexivity.
Defined.


Lemma missing_container_is_reported :
  let w := with_archive [] [] in
  unpack true (u "c.lica") (u "out") false w
  = {| result := Returned; stdout := [MsgReadFailed];
       final := fst (makedirs (u "out") w) |}.
Proof.
  apply (bulk_unreadable_is_reported true (u "c.lica") (u "out") (with_archive [] []));
    reflexivity.
Defined.


Lemma truncated_hello_bulk :
  let w := disk_with (out_f (pack_loop hello)) in
  unpack_bulk (u "c.lica") (u "out") w
  = {| result := Returned; stdout := [MsgReadFailed]; final := w |}.
Proof.
  apply (truncated_container_bulk (u "c.lica") (u "out")
           (disk_with (out_f (pack_loop hello))) hello).
  - repeat constructor; apply FoldFacts.scalar_valueb_spec; reflexivity.
  - vm_compute. reflexivity.
Defined.

Lemma unpack_into_the_container :
  let d := disk_with (container_text hello) in
  unpack true (u "c.lica") (u "c.lica") false d
  = {| result := Raised OSError; stdout := []; final := d |}.
Proof.
  apply (DiskRuns.unpack_into_a_file true (u "c.lica") (u "c.lica") false
           (disk_with (container_text hello))
           (map byte_of_N (container_text hello))).
  - destruct (DiskFacts.disk_write_bytes_spec (u "c.lica")
                (map byte_of_N (container_text hello)) (with_archive [] [])
                (disk_with (container_text hello))
                (DiskRuns.wf_with_archive [] [])) as [Hwf _];
      [vm_compute; reflexivity | exact Hwf].
  - vm_compute. reflexivity.
Defined.

Lemma pack_to_the_working_directory :
  let d := with_archive (u "in.zip") hello in
  pack (u "in.zip") (u ".") d
  = {| result := Raised OSError; stdout := []; final := d |}.
Proof.
  apply (DiskRuns.pack_to_unwritable_path (u "in.zip") (u ".")
           (with_archive (u "in.zip") hello) hello).
  - reflexivity.
  - reflexivity.
  - left. reflexivity.
Defined.



End MoreWitnesses.

(** ** Examples from the specification *)

Example b64encode_hi : Base64.b64encode (bytes_of "hi") = u "aGk=".
Proof. reflexivity. Qed.

Example b64decode_hi : Base64.b64decode (u "aGk=") = Some (bytes_of "hi").
Proof. reflexivity. Qed.

Example b64decode_short : Base64.b64decode (u "aGk") = None.
Proof. reflexivity. Qed.

